(** * Logistic regression (Practicas/Practica3/logistic_reg.py)

    A shallow embedding of the numeric routines of [logistic_reg.py]:
    [sigmoid], [compute_cost], [compute_gradient], their L2-regularised
    variants, the batch [gradient_descent] loop and [predict].

    Number model.  The NumPy [float64] arrays of the source are read as arrays
    of exact real numbers ([R] of the Standard Library): [np.exp] is [exp],
    [np.log] is [ln], and [+ - * /] are the field operations.  Statements
    over [R] are kept to those that rounding, overflow and NaN do not
    overturn.  Where they do decide the outcome (saturation of [sigmoid],
    overflow of [w**2], absorption of a small penalty) the routines are
    evaluated on binary64 numbers in the module [f64].  Arrays are [float64]
    arrays throughout; integer arrays, on which the in-place update of
    [gradient_descent] raises a casting error, are not represented.

    Array model.  A one-dimensional array is a [list R], a two-dimensional
    array a list of rows.  NumPy raises on shapes that do not fit, and Python
    raises on [1 / 0] and on arithmetic with [None]; the operations below
    return [None] in those cases.  An array that is mutated in place
    ([w -= ...] in [gradient_descent]) lives in a store indexed by
    references, so that aliasing between the caller's array and the loop's
    array is visible. *)

From Stdlib Require Import Reals Lra Lia List ZArith Bool.
From Stdlib Require Import Floats.
From stdpp Require Import base option list gmap.

Open Scope R_scope.

(** ** NumPy primitives used by the source *)

Module np.

Abbreviation vec := (list R).
Abbreviation matrix := (list (list R)).

(** [np.sum] of a one-dimensional array. *)
Definition sum (v : vec) : R := foldr Rplus 0 v.

(** Inner product of two rows of equal length. *)
Definition inner (u v : vec) : R := sum (zip_with Rmult u v).

(** [np.dot(X, v)] for [X] of shape (m,n) and [v] of shape (k,):
    a [ValueError] unless every row of [X] has [k] entries.  A matrix without
    rows carries no column count in this representation and is read as
    having [k] columns; NumPy raises when the column count of such a matrix
    differs from [k]. *)
Definition dot (X : matrix) (v : vec) : option vec :=
  if forallb (fun r => Nat.eqb (length r) (length v)) X
  then Some (map (fun r => inner r v) X)
  else None.

(** [X.T] for [X] of shape (m,n); [n] is [X.shape[1]].  The routines below
    transpose [X] after [np.dot(X, w)] has succeeded, when [X.shape[1]] is
    [len(w)]. *)
Definition T (n : nat) (X : matrix) : matrix :=
  map (fun j => map (fun r => nth j r 0) X) (seq 0 n).

(** Elementwise binary operation on one-dimensional arrays with NumPy's
    broadcasting: equal lengths, or one operand of length one. *)
Definition broadcast (f : R -> R -> R) (u v : vec) : option vec :=
  if Nat.eqb (length u) (length v) then Some (zip_with f u v)
  else match u, v with
       | [a], _ => Some (map (f a) v)
       | _, [c] => Some (map (fun x => f x c) u)
       | _, _ => None
       end.

(** In-place [w -= d] on [float64] arrays: [d] must broadcast to the shape of
    [w].  (On an integer array [w] the source raises a casting error; integer
    arrays are not represented.) *)
Definition isub (w d : vec) : option vec :=
  if Nat.eqb (length d) (length w) then Some (zip_with Rminus w d)
  else match d with
       | [c] => Some (map (fun x => x - c) w)
       | _ => None
       end.

(** [np.zeros(n)]. *)
Definition zeros (n : nat) : vec := replicate n 0.

End np.

(** Python's true division of a number by the integer [m = len(y)]:
    [ZeroDivisionError] when [m] is zero. *)
Definition py_div (a : R) (m : nat) : option R :=
  if Nat.eqb m 0 then None else Some (a / INR m).

(** ** sigmoid *)

(** [g = 1 / (1 + np.exp(-z))]; on an array the same formula elementwise.
    This is the formula in exact arithmetic; on binary64 ([f64.sigmoid]) the
    result is exactly 1 from about z = 37 and exactly 0 below about
    z = -710. *)
Definition sigmoid (z : R) : R := 1 / (1 + exp (- z)).

(** ** Cost and gradient *)

Import np.

(** The sum [np.sum(y * np.log(h) + (1 - y) * np.log(1 - h))] that both cost
    functions evaluate.  In exact arithmetic [h] lies strictly between 0 and
    1 and both logarithms are finite; on binary64 ([f64.log_likelihood]) a
    saturated [h] gives [-inf] or [nan]. *)
Definition log_likelihood (y h : vec) : option R :=
  t1 ← broadcast Rmult y (map ln h);
  t2 ← broadcast Rmult (map (fun yi => 1 - yi) y) (map (fun hi => ln (1 - hi)) h);
  s ← broadcast Rplus t1 t2;
  Some (sum s).

Definition compute_cost (X : matrix) (y w : vec) (b : R) (lambda_ : option R)
  : option R :=
  let m := length y in
  Xw ← dot X w;
  let z := map (fun t => t + b) Xw in
  let h := map sigmoid z in
  c ← py_div (-1) m;
  s ← log_likelihood y h;
  let total_cost := c * s in
  Some total_cost.

Definition compute_gradient (X : matrix) (y w : vec) (b : R) (lambda_ : option R)
  : option (R * vec) :=
  let m := length y in
  Xw ← dot X w;
  let z := map (fun t => t + b) Xw in
  let h := map sigmoid z in
  c ← py_div 1 m;
  d ← broadcast Rminus h y;
  let dj_db := c * sum d in
  c' ← py_div 1 m;
  d' ← broadcast Rminus h y;
  g ← dot (T (length w) X) d';
  let dj_dw := map (Rmult c') g in
  Some (dj_db, dj_dw).

Definition compute_cost_reg (X : matrix) (y w : vec) (b : R) (lambda_ : option R)
  : option R :=
  let m := length y in
  Xw ← dot X w;
  let z := map (fun t => t + b) Xw in
  let y_pred := map sigmoid z in
  c ← py_div (-1) m;
  s ← log_likelihood y y_pred;
  let cost := c * s in
  lam ← lambda_;
  q ← py_div lam (2 * m);
  let reg_term := q * sum (map (fun wj => wj ^ 2) w) in
  let total_cost := cost + reg_term in
  Some total_cost.

Definition compute_gradient_reg (X : matrix) (y w : vec) (b : R) (lambda_ : option R)
  : option (R * vec) :=
  let m := length y in
  Xw ← dot X w;
  let z := map (fun t => t + b) Xw in
  let y_pred := map sigmoid z in
  c ← py_div 1 m;
  d ← broadcast Rminus y_pred y;
  let dj_db := c * sum d in
  c' ← py_div 1 m;
  d' ← broadcast Rminus y_pred y;
  g ← dot (T (length w) X) d';
  lam ← lambda_;
  q ← py_div lam m;
  dj_dw ← broadcast Rplus (map (Rmult c') g) (map (Rmult q) w);
  Some (dj_db, dj_dw).

(** ** Gradient descent *)

(** The store of arrays that are mutated in place, indexed by reference. *)
Abbreviation store := (gmap nat (list R)).

(** Signatures of the [cost_function] and [gradient_function] arguments.
    They are called with the current contents of the arrays and may raise. *)
Abbreviation cost_fn := (matrix -> vec -> vec -> R -> option R -> option R).
Abbreviation grad_fn := (matrix -> vec -> vec -> R -> option R -> option (R * vec)).

Section GradientDescent.

Variables (X : matrix) (y : vec).
Variables (cost_function : cost_fn) (gradient_function : grad_fn).
Variables (alpha : R) (lambda_ : option R).

(** The body of [for i in range(num_iters)], run for the indices [idx];
    [w] is the reference of the array updated in place. *)
Fixpoint gd_loop (idx : list nat) (st : store) (w : nat) (b : R) (J_history : vec)
  : option (store * R * vec) :=
  match idx with
  | [] => Some (st, b, J_history)
  | i :: idx' =>
      wv ← st !! w;
      '(dj_db, dj_dw) ← gradient_function X y wv b lambda_;
      wv' ← isub wv (map (Rmult alpha) dj_dw);
      let st' := <[w := wv']> st in
      let b' := b - alpha * dj_db in
      wv'' ← st' !! w;
      cost ← cost_function X y wv'' b' lambda_;
      gd_loop idx' st' w b' (<[i := cost]> J_history)
  end.

(** [gradient_descent]: [w_in] is the reference of the caller's array; the
    result holds the final store, the reference of the returned array [w],
    the returned [b] and [J_history].  [b_in] is a scalar, as documented
    ([b = b_in] then rebinds [b] at every [b -= ...]; an array passed as
    [b_in] would be updated in place and is not represented).  [np.zeros]
    raises on a negative [num_iters]; its memory limit for a very large
    [num_iters] is not represented. *)
Definition gradient_descent (st : store) (w_in : nat) (b_in : R) (num_iters : Z)
  : option (store * nat * R * vec) :=
  w0 ← st !! w_in;
  let w := fresh (dom st) in
  let st := <[w := w0]> st in
  let b := b_in in
  if (num_iters <? 0)%Z then None else
  let J_history := zeros (Z.to_nat num_iters) in
  '(st', b', J_history') ← gd_loop (seq 0 (Z.to_nat num_iters)) st w b J_history;
  Some (st', w, b', J_history').

(** The update of one loop iteration on the contents [(w, b)]: the call of
    [gradient_function] and the two in-place subtractions of the loop body. *)
Definition gd_update (p : vec * R) : option (vec * R) :=
  '(dj_db, dj_dw) ← gradient_function X y p.1 p.2 lambda_;
  w' ← isub p.1 (map (Rmult alpha) dj_dw);
  Some (w', p.2 - alpha * dj_db).

(** The loop body iterated [r] times on the contents [p]: the final
    parameters and the costs in the order they are recorded. *)
Fixpoint gd_run (r : nat) (p : vec * R) : option (vec * R * list R) :=
  match r with
  | O => Some (p, [])
  | S r' =>
      p' ← gd_update p;
      c ← cost_function X y p'.1 p'.2 lambda_;
      '(pf, cs) ← gd_run r' p';
      Some (pf, c :: cs)
  end.

(** Following the spec: [w - alpha * dj_dw], entry by entry.  A gradient with
    a single entry is subtracted from every weight, as NumPy reads the
    expression; any other gradient of a different length has no
    difference with [w]. *)
Definition spec_step_w (w dj_dw : vec) : option vec :=
  if Nat.eqb (length dj_dw) (length w)
  then Some (zip_with (fun wj dj => wj - alpha * dj) w dj_dw)
  else match dj_dw with
       | [dj] => Some (map (fun wj => wj - alpha * dj) w)
       | _ => None
       end.

(** Following the spec: one iteration obtains [(dj_db, dj_dw)] from the
    gradient function at the current parameters and moves to
    [(w - alpha * dj_dw, b - alpha * dj_db)]. *)
Definition spec_update (p : vec * R) : option (vec * R) :=
  '(dj_db, dj_dw) ← gradient_function X y p.1 p.2 lambda_;
  w' ← spec_step_w p.1 dj_dw;
  Some (w', p.2 - alpha * dj_db).

(** Following the spec: the parameters after [k] iterations. *)
Fixpoint spec_params (k : nat) (p0 : vec * R) : option (vec * R) :=
  match k with
  | O => Some p0
  | S k' => p ← spec_params k' p0; spec_update p
  end.

(** Following the spec: the loss stored at index [i], the cost at the
    parameters that iteration [i] has just updated. *)
Definition spec_cost (i : nat) (p0 : vec * R) : option R :=
  p ← spec_params (S i) p0; cost_function X y p.1 p.2 lambda_.

End GradientDescent.

(** ** predict *)

(** The array a routine returns, with its number of dimensions. *)
Inductive ndarray (A : Type) : Type :=
  | Arr1 (v : list A)
  | Arr2 (n : nat) (M : list (list A)).
Arguments Arr1 {A} v.
Arguments Arr2 {A} n M.

(** [p.shape]. *)
Definition shape {A} (p : ndarray A) : list nat :=
  match p with
  | Arr1 v => [length v]
  | Arr2 n M => [length M; n]
  end.

(** [(h >= 0.5).astype(int)] on one entry, the comparison being decided on
    the exact value of [h]. *)
Definition threshold (h : R) : Z := if Rge_dec h 0.5 then 1%Z else 0%Z.

(** [predict] for [X] of shape (m,n) and [w] of shape (n,).  The first
    binding of [p], [np.zeros((m, 1))], is overwritten before it is read;
    the array returned is the one-dimensional [(h >= 0.5).astype(int)]. *)
Definition predict (X : matrix) (w : vec) (b : R) : option (ndarray Z) :=
  let m := length X in
  let p := Arr2 1 (replicate m [0%Z]) in
  Xw ← dot X w;
  let z := map (fun t => t + b) Xw in
  let h := map sigmoid z in
  let p := Arr1 (map threshold h) in
  Some p.

(** ** Shape contract and closed forms *)

(** The shape contract of the routines: [X] has one row per label and every
    row has one entry per weight. *)
Definition well_shaped (X : matrix) (y w : vec) : bool :=
  Nat.eqb (length X) (length y)
  && forallb (fun r => Nat.eqb (length r) (length w)) X.

(** The predicted probabilities [h_i = sigmoid(X_i . w + b)]. *)
Definition probabilities (X : matrix) (w : vec) (b : R) : vec :=
  map (fun r => sigmoid (inner r w + b)) X.

(** The average binary cross-entropy, [-(1/m) * sum(y log h + (1-y) log(1-h))]. *)
Definition cross_entropy (y h : vec) : R :=
  -1 / INR (length y)
  * sum (zip_with (fun yi hi => yi * ln hi + (1 - yi) * ln (1 - hi)) y h).

(** The L2 penalty [(lambda / 2m) * sum(w_j^2)]. *)
Definition l2_penalty (m : nat) (lam : R) (w : vec) : R :=
  lam / INR (2 * m) * sum (map (fun wj => wj ^ 2) w).

(** The residual [h - y] and the two gradients in closed form. *)
Definition residual (X : matrix) (y w : vec) (b : R) : vec :=
  zip_with Rminus (probabilities X w b) y.

Definition bias_gradient (X : matrix) (y w : vec) (b : R) : R :=
  1 / INR (length y) * sum (residual X y w b).

Definition weight_gradient (X : matrix) (y w : vec) (b : R) : vec :=
  map (Rmult (1 / INR (length y)))
      (map (fun c => inner c (residual X y w b)) (T (length w) X)).

(** Entry (i,j) of the feature matrix. *)
Definition entry (X : matrix) (i j : nat) : R := nth j (nth i X []) 0.

(** Following the spec: the finite sum [f 0 + ... + f (n-1)], by recursion
    on [n]. *)
Fixpoint Rsum_below (n : nat) (f : nat -> R) : R :=
  match n with
  | O => 0
  | S k => Rsum_below k f + f k
  end.

(** Following the spec: [h_i = sigmoid(sum_j X_ij w_j + b)]. *)
Definition spec_h (X : matrix) (w : vec) (b : R) (i : nat) : R :=
  sigmoid (Rsum_below (length w) (fun j => entry X i j * nth j w 0) + b).

(** Following the spec: [dj_db = (1/m) * sum_i (h_i - y_i)]. *)
Definition spec_dj_db (X : matrix) (y w : vec) (b : R) : R :=
  1 / INR (length y)
  * Rsum_below (length y) (fun i => spec_h X w b i - nth i y 0).

(** Following the spec: entry [j] of [(1/m) * X^T (h - y) + (lambda/m) * w]. *)
Definition spec_dj_dw (X : matrix) (y w : vec) (b lam : R) (j : nat) : R :=
  1 / INR (length y)
  * Rsum_below (length y) (fun i => entry X i j * (spec_h X w b i - nth i y 0))
  + lam / INR (length y) * nth j w 0.

(** ** The routines on binary64 numbers

    The same formulas on the [float64] numbers NumPy computes with
    (primitive binary64 floats, round to nearest even).  [exp] and [log]
    stand for [np.exp] and [np.log], which belong to NumPy and not to the
    repository: they are the usual argument reduction followed by a
    polynomial, accurate to about one unit in the last place (less in the
    subnormal range).  This model is used to evaluate the routines where
    rounding, overflow or NaN decide the outcome. *)

Module f64.

Local Open Scope float_scope.

(** [float(n)] for a Python integer [n = len(y)]. *)
Definition of_nat (n : nat) : float := of_uint63 (Uint63.of_Z (Z.of_nat n)).

(** [1 + r/k (1 + r/(k+1) (1 + ...))]: the Taylor polynomial of [e^r]. *)
Fixpoint exp_poly (n : nat) (k r : float) : float :=
  match n with
  | O => 1
  | S n' => 1 + r / k * exp_poly n' (k + 1) r
  end.

(** [x * 2^k] for an integer-valued [k], one binade at a time. *)
Fixpoint scale2 (n : nat) (x k : float) : float :=
  match n with
  | O => x
  | S n' =>
      if 1 <=? k then scale2 n' (x * 2) (k - 1)
      else if k <=? -1 then scale2 n' (x * 0.5) (k + 1)
      else x
  end.

Definition ln2_hi : float := 0x1.62e42fee00000p-1.
Definition ln2_lo : float := 0x1.a39ef35793c76p-33.
Definition inv_ln2 : float := 0x1.71547652b82fep+0.

(** [np.exp]: overflow to [inf] above 710, underflow to 0 below -746,
    otherwise [2^k * e^r] with [x = k ln 2 + r]. *)
Definition exp (x : float) : float :=
  if is_nan x then x
  else if 710 <? x then infinity
  else if x <? -746 then 0
  else
    let k := (x * inv_ln2 + 0x1.8p52) - 0x1.8p52 in
    let r := (x - k * ln2_hi) - k * ln2_lo in
    scale2 1100 (exp_poly 16 1 r) k.

(** [1/d + q/(d+2) + q^2/(d+4) + ...]: the series of [atanh(s)/s], [q = s^2]. *)
Fixpoint atanh_poly (n : nat) (d q : float) : float :=
  match n with
  | O => 1 / d
  | S n' => 1 / d + q * atanh_poly n' (d + 2) q
  end.

(** [np.log]: [nan] below 0, [-inf] at 0, otherwise [k ln 2 + log m] with
    [x = 2^k m] and [m] between [sqrt(1/2)] and [sqrt 2]. *)
Definition log (x : float) : float :=
  if is_nan x then x
  else if x <? 0 then nan
  else if x =? 0 then neg_infinity
  else if x =? infinity then infinity
  else
    let '(m, e) := frshiftexp x in
    let k := of_uint63 e - 2101 in
    let '(m, k) :=
      if m <? 0x1.6a09e667f3bcdp-1 then (2 * m, k - 1) else (m, k) in
    let s := (m - 1) / (m + 1) in
    (k * ln2_hi + 2 * (s * atanh_poly 20 1 (s * s))) + k * ln2_lo.

(** [np.sum] of a one-dimensional array, in index order. *)
Definition sum (v : list float) : float :=
  match v with
  | [] => 0
  | a :: v' => fold_left PrimFloat.add v' a
  end.

(** [np.dot(X, v)], [ValueError] unless every row has [len(v)] entries. *)
Definition dot (X : list (list float)) (v : list float) : option (list float) :=
  if forallb (fun r => Nat.eqb (length r) (length v)) X
  then Some (map (fun r => sum (zip_with PrimFloat.mul r v)) X)
  else None.

(** Elementwise operation with NumPy's broadcasting of one-dimensional
    arrays. *)
Definition broadcast (f : float -> float -> float) (u v : list float)
  : option (list float) :=
  if Nat.eqb (length u) (length v) then Some (zip_with f u v)
  else match u, v with
       | [a], _ => Some (map (f a) v)
       | _, [c] => Some (map (fun x => f x c) u)
       | _, _ => None
       end.

(** Python's [a / m] for the integer [m = len(y)]. *)
Definition py_div (a : float) (m : nat) : option float :=
  if Nat.eqb m 0 then None else Some (a / of_nat m).

(** [g = 1 / (1 + np.exp(-z))]. *)
Definition sigmoid (z : float) : float := 1 / (1 + exp (- z)).

(** [np.sum(y * np.log(h) + (1 - y) * np.log(1 - h))]. *)
Definition log_likelihood (y h : list float) : option float :=
  t1 ← broadcast PrimFloat.mul y (map log h);
  t2 ← broadcast PrimFloat.mul (map (fun yi => 1 - yi) y) (map (fun hi => log (1 - hi)) h);
  s ← broadcast PrimFloat.add t1 t2;
  Some (sum s).

Definition compute_cost (X : list (list float)) (y w : list float) (b : float)
  : option float :=
  let m := length y in
  Xw ← dot X w;
  let z := map (fun t => t + b) Xw in
  let h := map sigmoid z in
  c ← py_div (-1) m;
  s ← log_likelihood y h;
  let total_cost := c * s in
  Some total_cost.

Definition compute_cost_reg (X : list (list float)) (y w : list float)
    (b lambda_ : float) : option float :=
  let m := length y in
  Xw ← dot X w;
  let z := map (fun t => t + b) Xw in
  let y_pred := map sigmoid z in
  c ← py_div (-1) m;
  s ← log_likelihood y y_pred;
  let cost := c * s in
  q ← py_div lambda_ (2 * m);
  let reg_term := q * sum (map (fun wj => wj * wj) w) in
  let total_cost := cost + reg_term in
  Some total_cost.

End f64.

(** * Properties *)

(** ** sigmoid *)

Lemma sigmoid_gt_0 z : 0 < sigmoid z.
Proof.
  unfold sigmoid. pose proof (exp_pos (- z)). apply Rdiv_lt_0_compat; lra.
Qed.

Lemma sigmoid_lt_1 z : sigmoid z < 1.
Proof.
  unfold sigmoid. pose proof (exp_pos (- z)) as He.
  apply (Rmult_lt_reg_r (1 + exp (- z))); [lra|].
  unfold Rdiv. rewrite Rmult_assoc, Rinv_l by lra. lra.
Qed.

Lemma sigmoid_0 : sigmoid 0 = 0.5.
Proof. unfold sigmoid. rewrite Ropp_0, exp_0. lra. Qed.




(** ** Array primitives *)

Ltac solve_length :=
  repeat first [rewrite length_zip_with | rewrite length_map
               | rewrite length_seq | rewrite length_replicate];
  lia.

Lemma py_div_pos a m : (1 <= m)%nat -> py_div a m = Some (a / INR m).
Proof. intros Hm. unfold py_div. destruct m; [lia | reflexivity]. Qed.

Lemma broadcast_same_length f u v :
  length u = length v -> broadcast f u v = Some (zip_with f u v).
Proof. intros E. unfold broadcast. rewrite E, Nat.eqb_refl. reflexivity. Qed.

Lemma well_shaped_rows X y w :
  well_shaped X y w = true -> length X = length y.
Proof.
  unfold well_shaped. intros H. apply andb_true_iff in H as [H _].
  now apply Nat.eqb_eq.
Qed.

Lemma well_shaped_dot X y w :
  well_shaped X y w = true -> dot X w = Some (map (fun r => inner r w) X).
Proof.
  unfold well_shaped, dot. intros H. apply andb_true_iff in H as [_ H].
  now rewrite H.
Qed.

Lemma zip_with_map_l {A B C D} (f : B -> C -> D) (g : A -> B) u v :
  zip_with f (map g u) v = zip_with (fun a c => f (g a) c) u v.
Proof. revert v. induction u; intros [|c v]; simpl; congruence. Qed.

Lemma zip_with_map_r {A B C D} (f : A -> C -> D) (g : B -> C) u v :
  zip_with f u (map g v) = zip_with (fun a c => f a (g c)) u v.
Proof. revert v. induction u; intros [|c v]; simpl; congruence. Qed.

Lemma zip_with_zip_with_same {A B C D E} (f : C -> D -> E)
    (g : A -> B -> C) (k : A -> B -> D) u v :
  zip_with f (zip_with g u v) (zip_with k u v)
  = zip_with (fun a c => f (g a c) (k a c)) u v.
Proof. revert v. induction u; intros [|c v]; simpl; congruence. Qed.

Lemma probabilities_eq X w b :
  map sigmoid (map (fun t => t + b) (map (fun r => inner r w) X))
  = probabilities X w b.
Proof. unfold probabilities. rewrite !map_map. reflexivity. Qed.

Lemma length_probabilities X w b : length (probabilities X w b) = length X.
Proof. unfold probabilities. now rewrite length_map. Qed.

Lemma log_likelihood_same_length y h :
  length y = length h ->
  log_likelihood y h
  = Some (sum (zip_with (fun yi hi => yi * ln hi + (1 - yi) * ln (1 - hi)) y h)).
Proof.
  intros E. unfold log_likelihood.
  rewrite !broadcast_same_length by solve_length. simpl.
  rewrite broadcast_same_length by solve_length. simpl.
  rewrite !zip_with_map_r, zip_with_map_l, zip_with_zip_with_same.
  reflexivity.
Qed.

(** ** Closed forms of the cost functions on well-shaped data *)

Lemma compute_cost_closed X y w b lam :
  well_shaped X y w = true -> (1 <= length y)%nat ->
  compute_cost X y w b lam = Some (cross_entropy y (probabilities X w b)).
Proof.
  intros Hs Hm. unfold compute_cost.
  rewrite (well_shaped_dot _ _ _ Hs). simpl.
  rewrite py_div_pos by lia. simpl.
  rewrite probabilities_eq.
  rewrite log_likelihood_same_length
    by (rewrite length_probabilities; symmetry; eapply well_shaped_rows; eauto).
  reflexivity.
Qed.

Lemma compute_cost_reg_closed X y w b lam :
  well_shaped X y w = true -> (1 <= length y)%nat ->
  compute_cost_reg X y w b (Some lam)
  = Some (cross_entropy y (probabilities X w b) + l2_penalty (length y) lam w).
Proof.
  intros Hs Hm. unfold compute_cost_reg.
  rewrite (well_shaped_dot _ _ _ Hs). simpl.
  rewrite py_div_pos by lia. simpl.
  rewrite probabilities_eq.
  rewrite log_likelihood_same_length
    by (rewrite length_probabilities; symmetry; eapply well_shaped_rows; eauto).
  simpl. rewrite py_div_pos by lia. reflexivity.
Qed.

(** ** compute_cost against compute_cost_reg *)



(** In exact arithmetic the two costs agree at [lambda_ = 0] on every input,
    and they raise on the same inputs. *)
Lemma compute_cost_reg_zero_everywhere X y w b lam :
  compute_cost_reg X y w b (Some 0) = compute_cost X y w b lam.
Proof.
  unfold compute_cost_reg, compute_cost.
  destruct (dot X w) as [Xw|]; [simpl|reflexivity].
  unfold py_div. destruct (length y) as [|m]; [reflexivity|]. simpl.
  destruct (log_likelihood y _) as [s|]; [simpl|reflexivity].
  f_equal. unfold Rdiv. lra.
Qed.

Lemma INR_len_pos m : (1 <= m)%nat -> 0 < INR m.
Proof. intros Hm. apply (lt_INR 0). lia. Qed.



(** C10: compute_cost and compute_gradient do not depend on their lambda_
    argument. *)
Theorem compute_cost_gradient_ignore_lambda X y w b lambda1 lambda2 :
  compute_cost X y w b lambda1 = compute_cost X y w b lambda2
  /\ compute_gradient X y w b lambda1 = compute_gradient X y w b lambda2.
Proof. split; reflexivity. Qed.

(** ** Closed forms of the gradient functions on well-shaped data *)

Lemma T_rows X n k :
  length X = k -> forallb (fun r => Nat.eqb (length r) k) (T n X) = true.
Proof.
  intros E. unfold T. apply forallb_forall. intros r Hr.
  apply in_map_iff in Hr as [j [<- _]]. rewrite length_map. now apply Nat.eqb_eq.
Qed.

Lemma length_T X n : length (T n X) = n.
Proof. unfold T. solve_length. Qed.

Lemma dot_T X n d :
  length d = length X -> dot (T n X) d = Some (map (fun c => inner c d) (T n X)).
Proof. intros E. unfold dot. now rewrite T_rows. Qed.

Lemma length_residual X y w b :
  well_shaped X y w = true -> length (residual X y w b) = length X.
Proof.
  intros Hs. apply well_shaped_rows in Hs. unfold residual.
  rewrite length_zip_with, length_probabilities. lia.
Qed.

Lemma length_weight_gradient X y w b :
  length (weight_gradient X y w b) = length w.
Proof. unfold weight_gradient. rewrite !length_map. apply length_T. Qed.

Lemma compute_gradient_closed X y w b lam :
  well_shaped X y w = true -> (1 <= length y)%nat ->
  compute_gradient X y w b lam
  = Some (bias_gradient X y w b, weight_gradient X y w b).
Proof.
  intros Hs Hm. unfold compute_gradient.
  rewrite (well_shaped_dot _ _ _ Hs). simpl.
  rewrite !py_div_pos by lia. simpl. rewrite probabilities_eq.
  pose proof (well_shaped_rows _ _ _ Hs) as Hr.
  rewrite !broadcast_same_length by (rewrite length_probabilities; lia).
  simpl. fold (residual X y w b).
  rewrite dot_T by now apply length_residual.
  reflexivity.
Qed.

Lemma compute_gradient_reg_closed X y w b lam :
  well_shaped X y w = true -> (1 <= length y)%nat ->
  compute_gradient_reg X y w b (Some lam)
  = Some (bias_gradient X y w b,
          zip_with Rplus (weight_gradient X y w b)
                   (map (Rmult (lam / INR (length y))) w)).
Proof.
  intros Hs Hm. unfold compute_gradient_reg.
  rewrite (well_shaped_dot _ _ _ Hs). simpl.
  rewrite !py_div_pos by lia. simpl. rewrite probabilities_eq.
  pose proof (well_shaped_rows _ _ _ Hs) as Hr.
  rewrite !broadcast_same_length by (rewrite length_probabilities; lia).
  simpl. fold (residual X y w b).
  rewrite dot_T by now apply length_residual.
  simpl. rewrite ?py_div_pos by lia. simpl.
  fold (weight_gradient X y w b).
  rewrite broadcast_same_length
    by (rewrite length_weight_gradient, length_map; reflexivity).
  reflexivity.
Qed.

Lemma zip_with_plus_zero (u v : vec) (c : R) :
  length u = length v -> zip_with Rplus u (map (Rmult (0 / c)) v) = u.
Proof.
  revert v. induction u as [|a u IH]; intros [|x v] E; simpl in *; try lia; auto.
  f_equal; [unfold Rdiv; lra | apply IH; lia].
Qed.

(** The two gradients agree at [lambda_ = 0] on every input, and they raise
    on the same inputs. *)
Lemma compute_gradient_reg_zero_everywhere X y w b lam :
  compute_gradient_reg X y w b (Some 0) = compute_gradient X y w b lam.
Proof.
  unfold compute_gradient_reg, compute_gradient.
  destruct (dot X w) as [Xw|]; [simpl|reflexivity].
  destruct (py_div 1 (length y)) as [c|] eqn:Hc; [simpl|reflexivity].
  destruct (broadcast Rminus _ y) as [d|]; [simpl|reflexivity].
  destruct (dot (T (length w) X) d) as [g|] eqn:Hg; [simpl|reflexivity].
  assert (Hl : length g = length w).
  { unfold dot in Hg. destruct (forallb _ _); [|discriminate].
    injection Hg as <-. now rewrite length_map, length_T. }
  unfold py_div in *. destruct (Nat.eqb (length y) 0); [discriminate|]. simpl.
  rewrite broadcast_same_length by now rewrite !length_map.
  simpl. now rewrite zip_with_plus_zero by now rewrite length_map.
Qed.

(** C5: for every dataset with m >= 1 examples, compute_gradient_reg with
    lambda_ = 0 returns the same pair (dj_db, dj_dw) as compute_gradient. *)
Theorem compute_gradient_reg_zero_is_compute_gradient X y w b lam :
  well_shaped X y w = true -> (1 <= length y)%nat ->
  exists (dj_db : R) (dj_dw : vec),
    compute_gradient X y w b lam = Some (dj_db, dj_dw)
    /\ compute_gradient_reg X y w b (Some 0) = Some (dj_db, dj_dw).
Proof.
  intros Hs Hm.
  exists (bias_gradient X y w b), (weight_gradient X y w b). split.
  - now apply compute_gradient_closed.
  - rewrite compute_gradient_reg_closed by assumption.
    rewrite zip_with_plus_zero by apply length_weight_gradient.
    reflexivity.
Qed.

(** ** The gradient formulas, entry by entry *)

Lemma Rsum_below_S n f :
  Rsum_below (S n) f = f 0%nat + Rsum_below n (fun i => f (S i)).
Proof.
  induction n as [|n IH]; simpl in *; [lra|]. rewrite IH. lra.
Qed.

Lemma Rsum_below_ext n f g :
  (forall i, (i < n)%nat -> f i = g i) -> Rsum_below n f = Rsum_below n g.
Proof.
  intros E. induction n as [|n IH]; simpl; [reflexivity|].
  rewrite IH, E by (auto; intros; apply E; lia). reflexivity.
Qed.

(** [np.sum] of an array is the sum of its entries in index order. *)
Lemma sum_nth (l : vec) : sum l = Rsum_below (length l) (fun i => nth i l 0).
Proof.
  induction l as [|a l IH]; [reflexivity|].
  change (length (a :: l)) with (S (length l)). rewrite Rsum_below_S.
  simpl nth. rewrite <- IH. reflexivity.
Qed.

Lemma nth_zip_with (f : R -> R -> R) u v i :
  (i < length u)%nat -> (i < length v)%nat ->
  nth i (zip_with f u v) 0 = f (nth i u 0) (nth i v 0).
Proof.
  revert v i. induction u as [|a u IH]; intros [|c v] [|i] Hu Hv;
    simpl in *; try lia; auto.
  apply IH; lia.
Qed.

Lemma nth_map_in {A} (f : A -> R) (l : list A) (d : A) i :
  (i < length l)%nat -> nth i (map f l) 0 = f (nth i l d).
Proof.
  intros Hi. rewrite (nth_indep _ 0 (f d)) by now rewrite length_map.
  apply map_nth.
Qed.

Lemma inner_nth u v :
  length u = length v ->
  inner u v = Rsum_below (length v) (fun j => nth j u 0 * nth j v 0).
Proof.
  intros E. unfold inner. rewrite sum_nth, length_zip_with.
  replace (length u `min` length v)%nat with (length v) by lia.
  apply Rsum_below_ext. intros i Hi. apply nth_zip_with; lia.
Qed.

Lemma well_shaped_row X y w i :
  well_shaped X y w = true -> (i < length X)%nat ->
  length (nth i X []) = length w.
Proof.
  unfold well_shaped. intros H Hi. apply andb_true_iff in H as [_ H].
  rewrite forallb_forall in H. apply Nat.eqb_eq, H, nth_In, Hi.
Qed.

Lemma nth_probabilities X y w b i :
  well_shaped X y w = true -> (i < length X)%nat ->
  nth i (probabilities X w b) 0 = spec_h X w b i.
Proof.
  intros Hs Hi. unfold probabilities.
  rewrite (nth_map_in (A:=vec) _ _ []) by assumption.
  unfold spec_h, entry. f_equal. f_equal.
  apply inner_nth. eapply well_shaped_row; eauto.
Qed.

Lemma nth_residual X y w b i :
  well_shaped X y w = true -> (i < length X)%nat ->
  nth i (residual X y w b) 0 = spec_h X w b i - nth i y 0.
Proof.
  intros Hs Hi. pose proof (well_shaped_rows _ _ _ Hs) as Hr.
  unfold residual. rewrite nth_zip_with
    by (rewrite ?length_probabilities; lia).
  f_equal. eapply nth_probabilities; eauto.
Qed.

Lemma bias_gradient_spec X y w b :
  well_shaped X y w = true -> bias_gradient X y w b = spec_dj_db X y w b.
Proof.
  intros Hs. pose proof (well_shaped_rows _ _ _ Hs) as Hr.
  unfold bias_gradient, spec_dj_db. f_equal.
  rewrite sum_nth, length_residual, Hr by assumption.
  apply Rsum_below_ext. intros i Hi. apply nth_residual; [assumption | lia].
Qed.

Lemma nth_T X n j :
  (j < n)%nat -> nth j (T n X) [] = map (fun r => nth j r 0) X.
Proof.
  intros Hj. unfold T.
  rewrite (nth_indep _ [] (map (fun r => nth 0 r 0) X))
    by now rewrite length_map, length_seq.
  rewrite (map_nth (fun j => map (fun r => nth j r 0) X) (seq 0 n) 0%nat j).
  now rewrite seq_nth.
Qed.

Lemma nth_weight_gradient X y w b j :
  well_shaped X y w = true -> (j < length w)%nat ->
  nth j (weight_gradient X y w b) 0
  = 1 / INR (length y)
    * Rsum_below (length y)
        (fun i => entry X i j * (spec_h X w b i - nth i y 0)).
Proof.
  intros Hs Hj. pose proof (well_shaped_rows _ _ _ Hs) as Hr.
  unfold weight_gradient. rewrite map_map.
  rewrite (nth_map_in (A:=vec) _ _ []) by now rewrite length_T.
  f_equal. rewrite nth_T by assumption.
  rewrite inner_nth by now rewrite length_map, length_residual.
  rewrite length_residual, Hr by assumption.
  apply Rsum_below_ext. intros i Hi.
  rewrite (nth_map_in (A:=list R) _ _ []) by lia.
  rewrite nth_residual by (assumption || lia). reflexivity.
Qed.

(** C6: for every dataset with m >= 1 examples, compute_gradient_reg returns
    dj_db = (1/m) sum (h - y) and dj_dw = (1/m) X^T (h - y) + (lambda/m) w with
    h = sigmoid(X w + b); lambda enters the weight gradient only, and dj_db
    is the bias gradient that compute_gradient returns. *)
Theorem compute_gradient_reg_formulas X y w b lam :
  well_shaped X y w = true -> (1 <= length y)%nat ->
  exists (dj_db : R) (dj_dw : vec),
    compute_gradient_reg X y w b (Some lam) = Some (dj_db, dj_dw)
    /\ dj_db = spec_dj_db X y w b
    /\ length dj_dw = length w
    /\ (forall j, (j < length w)%nat ->
          nth j dj_dw 0 = spec_dj_dw X y w b lam j)
    /\ (exists g : vec, compute_gradient X y w b None = Some (dj_db, g)).
Proof.
  intros Hs Hm.
  eexists _, _. split; [now apply compute_gradient_reg_closed|].
  split; [now apply bias_gradient_spec|].
  split; [rewrite length_zip_with, length_weight_gradient, length_map; lia|].
  split.
  - intros j Hj. unfold spec_dj_dw.
    rewrite nth_zip_with
      by (rewrite ?length_weight_gradient, ?length_map; assumption).
    rewrite nth_weight_gradient by assumption.
    now rewrite (nth_map_in _ _ 0) by assumption.
  - eexists. now apply compute_gradient_closed.
Qed.

(** ** Gradient descent, iteration by iteration *)

Section GradientDescentFacts.

Variables (X : matrix) (y : vec).
Variables (cost_function : cost_fn) (gradient_function : grad_fn).
Variables (alpha : R) (lambda_ : option R).

(** The loop, the routine and the iteration of the spec at the section's
    dataset, functions, learning rate and [lambda_]. *)
Local Abbreviation loop :=
  (gd_loop X y cost_function gradient_function alpha lambda_).
Local Abbreviation descent :=
  (gradient_descent X y cost_function gradient_function alpha lambda_).
Local Abbreviation update := (gd_update X y gradient_function alpha lambda_).
Local Abbreviation step := (spec_update X y gradient_function alpha lambda_).
Local Abbreviation params := (spec_params X y gradient_function alpha lambda_).
Local Abbreviation recorded :=
  (spec_cost X y cost_function gradient_function alpha lambda_).
Local Abbreviation run :=
  (gd_run X y cost_function gradient_function alpha lambda_).

Lemma gd_loop_run r : forall k (st : store) w wv b (J : vec),
  st !! w = Some wv -> (k + r <= length J)%nat ->
  loop (seq k r) st w b J
  = res ← run r (wv, b);
    Some (<[w := res.1.1]> st, res.1.2, take k J ++ res.2 ++ drop (k + r) J).
Proof.
  induction r as [|r IH]; intros k st w wv b J Hw HJ.
  - simpl. rewrite insert_id by assumption.
    rewrite Nat.add_0_r, take_drop. reflexivity.
  - simpl. rewrite Hw. simpl. unfold gd_update. simpl.
    destruct (gradient_function X y wv b lambda_) as [[dj_db dj_dw]|];
      [simpl|reflexivity].
    destruct (isub wv (map (Rmult alpha) dj_dw)) as [wv'|];
      [simpl|reflexivity].
    rewrite lookup_insert_eq. simpl.
    destruct (cost_function X y wv' (b - alpha * dj_db) lambda_) as [c|];
      [simpl|reflexivity].
    rewrite (IH (S k) _ w wv');
      [| apply lookup_insert_eq | rewrite length_insert; lia].
    destruct (run r (wv', b - alpha * dj_db)) as [[pf cs]|];
      [simpl|reflexivity].
    rewrite insert_insert_eq. do 2 f_equal.
    rewrite (take_S_r _ k c) by (apply list_lookup_insert_eq; lia).
    rewrite take_insert_ge by lia.
    rewrite drop_insert_lt by lia.
    rewrite <- app_assoc. simpl. now rewrite Nat.add_succ_r.
Qed.

Lemma gradient_descent_run (st : store) w_in w0 b_in num_iters :
  st !! w_in = Some w0 -> (0 <= num_iters)%Z ->
  descent st w_in b_in num_iters
  = res ← run (Z.to_nat num_iters) (w0, b_in);
    Some (<[fresh (dom st) := res.1.1]> st, fresh (dom st), res.1.2, res.2).
Proof.
  intros Hw Hn. unfold gradient_descent. rewrite Hw. simpl.
  destruct (Z.ltb_spec num_iters 0) as [|_]; [lia|].
  rewrite (gd_loop_run _ 0 _ _ w0);
    [| apply lookup_insert_eq | unfold zeros; rewrite length_replicate; lia].
  destruct (run (Z.to_nat num_iters) (w0, b_in)) as [[[wf bf] cs]|];
    [simpl|reflexivity].
  rewrite insert_insert_eq, drop_ge, app_nil_r
    by (unfold zeros; rewrite length_replicate; lia).
  reflexivity.
Qed.

(** The in-place subtraction of the loop computes the difference of the
    spec. *)
Lemma isub_spec_step_w (w dj_dw : vec) :
  isub w (map (Rmult alpha) dj_dw) = spec_step_w alpha w dj_dw.
Proof.
  unfold isub, spec_step_w. rewrite length_map.
  destruct (Nat.eqb (length dj_dw) (length w)).
  - now rewrite zip_with_map_r.
  - now destruct dj_dw as [|dj [|dj' dj_dw]].
Qed.

Lemma gd_update_spec p : update p = step p.
Proof.
  unfold gd_update, spec_update.
  destruct (gradient_function X y p.1 p.2 lambda_) as [[dj_db dj_dw]|];
    [simpl|reflexivity].
  now rewrite isub_spec_step_w.
Qed.

Lemma spec_params_shift k p :
  params (S k) p = p' ← step p; params k p'.
Proof.
  induction k as [|k IH].
  - simpl. now destruct (step p).
  - change (params (S (S k)) p) with (params (S k) p ≫= step).
    rewrite IH. now destruct (step p).
Qed.

Lemma spec_cost_shift i p :
  recorded (S i) p = p' ← step p; recorded i p'.
Proof.
  unfold spec_cost. rewrite (spec_params_shift (S i)). now destruct (step p).
Qed.

Lemma spec_cost_first p :
  recorded 0 p = p' ← step p; cost_function X y p'.1 p'.2 lambda_.
Proof. reflexivity. Qed.

Lemma gd_run_Some r : forall p pf cs,
  run r p = Some (pf, cs) ->
  params r p = Some pf
  /\ length cs = r
  /\ forall i, (i < r)%nat ->
       exists c, recorded i p = Some c /\ cs !! i = Some c.
Proof.
  induction r as [|r IH]; intros p pf cs H.
  - simpl in H. injection H as <- <-. repeat split. intros i Hi. lia.
  - simpl in H. rewrite gd_update_spec in H. rewrite spec_params_shift.
    destruct (step p) as [p'|] eqn:Hu; [simpl in *|discriminate].
    destruct (cost_function X y p'.1 p'.2 lambda_) as [c|] eqn:Hc;
      [simpl in *|discriminate].
    destruct (run r p') as [[pf' cs']|] eqn:Hr; [simpl in *|discriminate].
    injection H as <- <-.
    destruct (IH _ _ _ Hr) as (Hp & Hl & Hcs).
    split; [assumption|]. split; [simpl; now rewrite Hl|].
    intros [|i] Hi.
    + exists c. split; [|reflexivity].
      rewrite spec_cost_first, Hu. exact Hc.
    + destruct (Hcs i) as (c' & Hc' & Hi'); [lia|].
      exists c'. split; [|exact Hi'].
      rewrite spec_cost_shift, Hu. exact Hc'.
Qed.

Lemma gd_run_None r : forall p,
  run r p = None -> exists i, (i < r)%nat /\ recorded i p = None.
Proof.
  induction r as [|r IH]; intros p H; [discriminate|].
  simpl in H. rewrite gd_update_spec in H.
  destruct (step p) as [p'|] eqn:Hu.
  - simpl in H.
    destruct (cost_function X y p'.1 p'.2 lambda_) as [c|] eqn:Hc.
    + simpl in H. destruct (run r p') as [[pf cs]|] eqn:Hr; [discriminate|].
      destruct (IH _ Hr) as (i & Hi & Hci).
      exists (S i). split; [lia|]. rewrite spec_cost_shift, Hu. exact Hci.
    + exists 0%nat. split; [lia|]. rewrite spec_cost_first, Hu. exact Hc.
  - exists 0%nat. split; [lia|]. now rewrite spec_cost_first, Hu.
Qed.

(** C2: gradient_descent performs exactly num_iters iterations; the returned
    parameters are those after num_iters updates of w to w - alpha dj_dw
    (entry by entry) and of b to b - alpha dj_db, with (dj_db, dj_dw) from
    the gradient function at the current parameters; entry i of the loss
    history is the cost at the parameters iteration i has updated; the loss
    history has length num_iters; it raises only when one of the supplied
    functions raises or a gradient does not have the shape of w. *)
Theorem gradient_descent_runs_num_iters (st : store) w_in w0 b_in num_iters :
  st !! w_in = Some w0 -> (0 <= num_iters)%Z ->
  let n := Z.to_nat num_iters in
  match
    gradient_descent X y cost_function gradient_function alpha lambda_
      st w_in b_in num_iters
  with
  | Some (st', w, b, J_history) =>
      (exists wv,
         spec_params X y gradient_function alpha lambda_ n (w0, b_in)
         = Some (wv, b)
         /\ st' !! w = Some wv)
      /\ length J_history = n
      /\ (forall i, (i < n)%nat ->
            exists c,
              spec_cost X y cost_function gradient_function alpha lambda_
                i (w0, b_in) = Some c
              /\ J_history !! i = Some c)
  | None =>
      exists i,
        (i < n)%nat
        /\ spec_cost X y cost_function gradient_function alpha lambda_
             i (w0, b_in) = None
  end.
Proof.
  intros Hw Hn n. rewrite (gradient_descent_run _ _ _ _ _ Hw Hn). fold n.
  destruct (run n (w0, b_in)) as [[[wf bf] cs]|] eqn:Hr.
  - simpl. apply gd_run_Some in Hr as (Hp & Hl & Hcs).
    split; [|split; assumption].
    exists wf. split; [assumption | apply lookup_insert_eq].
  - simpl. now apply gd_run_None.
Qed.

(** C3: with num_iters = 0, gradient_descent returns an array with the
    contents of w_in, b equal to b_in, and a loss history of length 0. *)
Theorem gradient_descent_zero_iters (st : store) w_in w0 b_in :
  st !! w_in = Some w0 ->
  exists (st' : store) (w : nat) (J_history : vec),
    gradient_descent X y cost_function gradient_function alpha lambda_
      st w_in b_in 0
    = Some (st', w, b_in, J_history)
    /\ st' !! w = Some w0
    /\ length J_history = 0%nat.
Proof.
  intros Hw. unfold gradient_descent. rewrite Hw. simpl.
  eexists _, _, _. split; [reflexivity|].
  split; [apply lookup_insert_eq | reflexivity].
Qed.

Lemma fresh_ref_ne (st : store) w_in w0 :
  st !! w_in = Some w0 -> fresh (dom st) <> w_in.
Proof.
  intros Hw E. apply (is_fresh (dom st)). rewrite E.
  apply elem_of_dom. eauto.
Qed.

(** C9: gradient_descent leaves the caller's w_in unchanged: the array it
    updates and returns is a fresh copy, and after it returns the store
    holds the initial values at w_in, for every num_iters >= 0. *)
Theorem gradient_descent_preserves_w_in
    (st : store) w_in w0 b_in num_iters st' w b J_history :
  st !! w_in = Some w0 -> (0 <= num_iters)%Z ->
  gradient_descent X y cost_function gradient_function alpha lambda_
    st w_in b_in num_iters
  = Some (st', w, b, J_history) ->
  w <> w_in /\ st' !! w_in = Some w0.
Proof.
  intros Hw Hn. rewrite (gradient_descent_run _ _ _ _ _ Hw Hn).
  destruct (run (Z.to_nat num_iters) (w0, b_in)) as [[[wf bf] cs]|];
    [simpl|discriminate].
  intros H. injection H as <- <- <- <-.
  pose proof (fresh_ref_ne _ _ _ Hw) as Hne.
  split; [assumption|]. now rewrite lookup_insert_ne.
Qed.

End GradientDescentFacts.

(** ** Gradient descent with the repository's cost and gradient *)

Lemma well_shaped_length X y w w' :
  length w' = length w -> well_shaped X y w' = well_shaped X y w.
Proof. intros E. unfold well_shaped. now rewrite E. Qed.

Lemma isub_same_length w d :
  length d = length w -> isub w d = Some (zip_with Rminus w d).
Proof. intros E. unfold isub. now rewrite E, Nat.eqb_refl. Qed.

Lemma gd_run_returns X y alpha lam r : forall wv b,
  well_shaped X y wv = true -> (1 <= length y)%nat ->
  is_Some (gd_run X y compute_cost compute_gradient alpha lam r (wv, b)).
Proof.
  induction r as [|r IH]; intros wv b Hs Hm; [simpl; eauto|].
  simpl. unfold gd_update. simpl.
  rewrite compute_gradient_closed by assumption. simpl.
  rewrite isub_same_length by (rewrite length_map; apply length_weight_gradient).
  simpl.
  set (wv' := zip_with Rminus wv _). set (b' := b - _).
  assert (Hs' : well_shaped X y wv' = true).
  { rewrite (well_shaped_length _ _ wv); [assumption|].
    subst wv'. rewrite length_zip_with, length_map, length_weight_gradient. lia. }
  rewrite compute_cost_closed by assumption. simpl.
  destruct (IH wv' b' Hs' Hm) as [[pf cs] ->]. simpl. eauto.
Qed.

Lemma gradient_descent_returns X y alpha lam (st : store) w_in w0 b_in num_iters :
  st !! w_in = Some w0 -> (0 <= num_iters)%Z ->
  well_shaped X y w0 = true -> (1 <= length y)%nat ->
  exists st' w b J_history,
    gradient_descent X y compute_cost compute_gradient alpha lam
      st w_in b_in num_iters
    = Some (st', w, b, J_history).
Proof.
  intros Hw Hn Hs Hm. rewrite (gradient_descent_run _ _ _ _ _ _ _ _ _ _ _ Hw Hn).
  destruct (gd_run_returns X y alpha lam (Z.to_nat num_iters) w0 b_in Hs Hm)
    as [[[wf bf] cs] ->].
  simpl. eauto.
Qed.

(** ** predict *)

Lemma threshold_cases h :
  (threshold h = 1%Z /\ h >= 0.5) \/ (threshold h = 0%Z /\ h < 0.5).
Proof.
  unfold threshold. destruct (Rge_dec h 0.5) as [Hge|Hlt].
  - left. now split.
  - right. split; [reflexivity|]. now apply Rnot_ge_lt.
Qed.

Lemma predict_closed X w b :
  forallb (fun r => Nat.eqb (length r) (length w)) X = true ->
  predict X w b
  = Some (Arr1 (map (fun r => threshold (sigmoid (inner r w + b))) X)).
Proof.
  intros Hs. unfold predict, dot. rewrite Hs. simpl.
  now rewrite !map_map.
Qed.

(** On every input on which it returns, [predict] returns a one-dimensional
    array with one entry per example. *)
Lemma predict_shape X w b p :
  predict X w b = Some p -> shape p = [length X].
Proof.
  unfold predict. destruct (dot X w) as [Xw|] eqn:Hd; [simpl|discriminate].
  intros H. injection H as <-. simpl.
  unfold dot in Hd. destruct (forallb _ X); [|discriminate].
  injection Hd as <-. now rewrite !length_map.
Qed.

(** The entries [predict] returns are 0 or 1, and entry [i] is 1 exactly
    when [sigmoid(X_i . w + b) >= 0.5]. *)
Lemma predict_entries X w b :
  forallb (fun r => Nat.eqb (length r) (length w)) X = true ->
  exists p : list Z,
    predict X w b = Some (Arr1 p)
    /\ length p = length X
    /\ forall i r, X !! i = Some r ->
         (p !! i = Some 1%Z /\ sigmoid (inner r w + b) >= 0.5)
         \/ (p !! i = Some 0%Z /\ sigmoid (inner r w + b) < 0.5).
Proof.
  intros Hs. eexists. split; [now apply predict_closed|].
  split; [now rewrite length_map|].
  intros i r Hi. rewrite list_lookup_fmap, Hi. simpl.
  destruct (threshold_cases (sigmoid (inner r w + b))) as [[-> H]|[-> H]];
    [left | right]; now split.
Qed.

(** C1: predict on X = [[1, 2]] (shape (1,2)), w = [0, 0] (shape (2,)) and
    b = 0 returns the one-dimensional array [1], whose shape is (1,) and not
    (1,1). *)
Theorem predict_returns_one_dimensional :
  predict [[1; 2]] [0; 0] 0 = Some (Arr1 [1%Z])
  /\ shape (Arr1 [1%Z]) = [1%nat]
  /\ shape (Arr1 [1%Z]) <> [1%nat; 1%nat].
Proof.
  split; [|split; [reflexivity | discriminate]].
  rewrite predict_closed by reflexivity. simpl. do 3 f_equal.
  unfold threshold, inner, sum. simpl.
  replace (1 * 0 + (2 * 0 + 0) + 0) with 0 by lra.
  destruct (Rge_dec (sigmoid 0) 0.5) as [_|Hn]; [reflexivity|].
  exfalso. apply Hn. unfold sigmoid. rewrite Ropp_0, exp_0. lra.
Qed.

(** ** The theorems at a concrete dataset *)




Lemma compute_gradient_reg_zero_is_compute_gradient_witness :
  well_shaped [[1; 2]; [3; 4]] [0; 1] [1; -1] = true
  /\ (1 <= length [0; 1]%R)%nat
  /\ exists (dj_db : R) (dj_dw : vec),
       compute_gradient [[1; 2]; [3; 4]] [0; 1] [1; -1] 0 None
       = Some (dj_db, dj_dw)
       /\ compute_gradient_reg [[1; 2]; [3; 4]] [0; 1] [1; -1] 0 (Some 0)
          = Some (dj_db, dj_dw).
Proof.
  split; [reflexivity|]. split; [simpl; lia|].
  apply compute_gradient_reg_zero_is_compute_gradient;
    [reflexivity | simpl; lia].
Defined.

Lemma compute_gradient_reg_formulas_witness :
  well_shaped [[1; 2]; [3; 4]] [0; 1] [1; -1] = true
  /\ (1 <= length [0; 1]%R)%nat
  /\ exists (dj_db : R) (dj_dw : vec),
       compute_gradient_reg [[1; 2]; [3; 4]] [0; 1] [1; -1] 0 (Some 10)
       = Some (dj_db, dj_dw)
       /\ dj_db = spec_dj_db [[1; 2]; [3; 4]] [0; 1] [1; -1] 0
       /\ length dj_dw = length [1; -1]
       /\ (forall j, (j < length [1; -1]%R)%nat ->
             nth j dj_dw 0 = spec_dj_dw [[1; 2]; [3; 4]] [0; 1] [1; -1] 0 10 j)
       /\ (exists g : vec,
             compute_gradient [[1; 2]; [3; 4]] [0; 1] [1; -1] 0 None
             = Some (dj_db, g)).
Proof.
  split; [reflexivity|]. split; [simpl; lia|].
  apply compute_gradient_reg_formulas; [reflexivity | simpl; lia].
Defined.


Lemma gradient_descent_zero_iters_witness :
  ({[0%nat := [1; -1]]} : store) !! 0%nat = Some [1; -1]
  /\ exists (st' : store) (w : nat) (J_history : vec),
       gradient_descent [[1; 2]; [3; 4]] [0; 1] compute_cost compute_gradient
         0.1 None {[0%nat := [1; -1]]} 0 0 0
       = Some (st', w, 0, J_history)
       /\ st' !! w = Some [1; -1]
       /\ length J_history = 0%nat.
Proof.
  split; [reflexivity|].
  apply gradient_descent_zero_iters. reflexivity.
Defined.

Lemma gradient_descent_runs_num_iters_witness :
  ({[0%nat := [1; -1]]} : store) !! 0%nat = Some [1; -1]
  /\ (0 <= 3)%Z
  /\ exists (st' : store) (w : nat) (b : R) (J_history : vec),
       gradient_descent [[1; 2]; [3; 4]] [0; 1] compute_cost compute_gradient
         0.1 None {[0%nat := [1; -1]]} 0 0 3
       = Some (st', w, b, J_history)
       /\ length J_history = 3%nat
       /\ J_history !! 2%nat
          = spec_cost [[1; 2]; [3; 4]] [0; 1] compute_cost compute_gradient
              0.1 None 2 ([1; -1], 0).
Proof.
  split; [reflexivity|]. split; [lia|].
  pose proof (gradient_descent_runs_num_iters
                [[1; 2]; [3; 4]] [0; 1] compute_cost compute_gradient 0.1 None
                {[0%nat := [1; -1]]} 0%nat [1; -1] 0 3 eq_refl) as H.
  destruct (gradient_descent_returns [[1; 2]; [3; 4]] [0; 1] 0.1 None
              {[0%nat := [1; -1]]} 0%nat [1; -1] 0 3)
    as (st' & w & b & J & HJ); [reflexivity | lia | reflexivity | simpl; lia |].
  rewrite HJ in H. destruct H as (_ & Hl & Hc); [lia|].
  exists st', w, b, J. split; [exact HJ|]. split; [exact Hl|].
  destruct (Hc 2%nat) as (c & -> & ->); [simpl; lia | reflexivity].
Defined.

Lemma gradient_descent_preserves_w_in_witness :
  ({[0%nat := [1; -1]]} : store) !! 0%nat = Some [1; -1]
  /\ (0 <= 3)%Z
  /\ exists (st' : store) (w : nat) (b : R) (J_history : vec),
       gradient_descent [[1; 2]; [3; 4]] [0; 1] compute_cost compute_gradient
         0.1 None {[0%nat := [1; -1]]} 0 0 3
       = Some (st', w, b, J_history)
       /\ w <> 0%nat
       /\ st' !! 0%nat = Some [1; -1].
Proof.
  split; [reflexivity|]. split; [lia|].
  destruct (gradient_descent_returns [[1; 2]; [3; 4]] [0; 1] 0.1 None
              {[0%nat := [1; -1]]} 0%nat [1; -1] 0 3)
    as (st' & w & b & J & HJ); [reflexivity | lia | reflexivity | simpl; lia |].
  exists st', w, b, J. split; [exact HJ|].
  apply (gradient_descent_preserves_w_in
           [[1; 2]; [3; 4]] [0; 1] compute_cost compute_gradient 0.1 None
           {[0%nat := [1; -1]]} 0%nat [1; -1] 0 3 st' w b J);
    [reflexivity | lia | exact HJ].
Defined.

(** * Further properties of the routines *)

(** ** sigmoid: order and derivative *)

Lemma one_minus_sigmoid z : 1 - sigmoid z = exp (- z) / (1 + exp (- z)).
Proof. unfold sigmoid. pose proof (exp_pos (- z)). field. lra. Qed.

Lemma sigmoid_lt z1 z2 : z1 < z2 -> sigmoid z1 < sigmoid z2.
Proof.
  intros Hz. unfold sigmoid, Rdiv. rewrite !Rmult_1_l.
  pose proof (exp_pos (- z1)). pose proof (exp_pos (- z2)).
  assert (exp (- z2) < exp (- z1)) by (apply exp_increasing; lra).
  apply Rinv_lt_contravar; [|lra].
  apply Rmult_lt_0_compat; lra.
Qed.

(** X1: sigmoid never decreases; it is at least 0.5 on the non-negative
    scores and at most 0.5 on the non-positive ones. *)
Theorem sigmoid_monotone_threshold :
  (forall z1 z2 : R, z1 <= z2 -> sigmoid z1 <= sigmoid z2)
  /\ (forall z : R, 0 <= z -> sigmoid z >= 0.5)
  /\ (forall z : R, z <= 0 -> sigmoid z <= 0.5).
Proof.
  assert (Hmono : forall z1 z2 : R, z1 <= z2 -> sigmoid z1 <= sigmoid z2).
  { intros z1 z2 [Hlt| ->]; [left; now apply sigmoid_lt | right; reflexivity]. }
  split; [exact Hmono|].
  split; intros z Hz.
  - pose proof (Hmono 0 z Hz). rewrite sigmoid_0 in *. lra.
  - pose proof (Hmono z 0 Hz). rewrite sigmoid_0 in *. lra.
Qed.

(** The two logarithms of the cost in terms of [ln (1 + exp (- z))]. *)
Lemma ln_sigmoid z : ln (sigmoid z) = - ln (1 + exp (- z)).
Proof.
  unfold sigmoid, Rdiv. rewrite Rmult_1_l. apply ln_Rinv.
  pose proof (exp_pos (- z)). lra.
Qed.

Lemma ln_one_minus_sigmoid z :
  ln (1 - sigmoid z) = - z - ln (1 + exp (- z)).
Proof.
  rewrite one_minus_sigmoid. pose proof (exp_pos (- z)).
  unfold Rdiv. rewrite ln_mult, ln_Rinv, ln_exp; try lra.
  apply Rinv_0_lt_compat. lra.
Qed.

Lemma cost_term_closed yi z :
  yi * ln (sigmoid z) + (1 - yi) * ln (1 - sigmoid z)
  = - ln (1 + exp (- z)) - (1 - yi) * z.
Proof. rewrite ln_sigmoid, ln_one_minus_sigmoid. ring. Qed.

Lemma derivable_pt_lim_eq f x l l' :
  l = l' -> derivable_pt_lim f x l -> derivable_pt_lim f x l'.
Proof. now intros ->. Qed.

Lemma derivable_pt_lim_affine a k t :
  derivable_pt_lim (fun t => a + k * t) t k.
Proof.
  apply (derivable_pt_lim_ext (plus_fct (fct_cte a) (mult_real_fct k id)));
    [intros z; reflexivity|].
  apply (derivable_pt_lim_eq _ _ (0 + k * 1)); [ring|].
  apply derivable_pt_lim_plus;
    [apply derivable_pt_lim_const | apply derivable_pt_lim_scal, derivable_pt_lim_id].
Qed.

Lemma derivable_pt_lim_softplus a k t :
  derivable_pt_lim (fun t => ln (1 + exp (- (a + k * t)))) t
    (- k * (1 - sigmoid (a + k * t))).
Proof.
  set (u := fun t => - (a + k * t)).
  set (p := fun t => 1 + exp (u t)).
  assert (Hu : derivable_pt_lim u t (- k)).
  { apply (derivable_pt_lim_ext (opp_fct (fun t => a + k * t)));
      [intros z; reflexivity|].
    apply derivable_pt_lim_opp, derivable_pt_lim_affine. }
  assert (Hp : derivable_pt_lim p t (exp (u t) * - k)).
  { apply (derivable_pt_lim_ext (plus_fct (fct_cte 1) (comp exp u)));
      [intros z; reflexivity|].
    apply (derivable_pt_lim_eq _ _ (0 + exp (u t) * - k)); [ring|].
    apply derivable_pt_lim_plus; [apply derivable_pt_lim_const|].
    apply derivable_pt_lim_comp; [exact Hu | apply derivable_pt_lim_exp]. }
  pose proof (exp_pos (u t)) as He.
  apply (derivable_pt_lim_ext (comp ln p)); [intros z; reflexivity|].
  apply (derivable_pt_lim_eq _ _ (/ p t * (exp (u t) * - k))).
  { rewrite one_minus_sigmoid. unfold p, u. field. fold (u t). lra. }
  apply derivable_pt_lim_comp; [exact Hp|].
  apply derivable_pt_lim_ln. unfold p. lra.
Qed.

(** The derivative of one term of the cross-entropy along [z = a + k t]. *)
Lemma derivable_pt_lim_cost_term yi a k t :
  derivable_pt_lim
    (fun t => yi * ln (sigmoid (a + k * t))
              + (1 - yi) * ln (1 - sigmoid (a + k * t)))
    t (k * (yi - sigmoid (a + k * t))).
Proof.
  apply (derivable_pt_lim_ext
           (minus_fct (opp_fct (fun t => ln (1 + exp (- (a + k * t)))))
                      (mult_real_fct (1 - yi) (fun t => a + k * t)))).
  { intros z. rewrite cost_term_closed. reflexivity. }
  apply (derivable_pt_lim_eq _ _
           (- (- k * (1 - sigmoid (a + k * t))) - (1 - yi) * k)); [ring|].
  apply derivable_pt_lim_minus.
  - apply derivable_pt_lim_opp, derivable_pt_lim_softplus.
  - apply derivable_pt_lim_scal, derivable_pt_lim_affine.
Qed.

(** ** The gradient routines return the derivatives of the cost routines *)

Lemma derivable_pt_lim_sum_zip_with {A B} (f : A -> B -> R -> R)
    (d : A -> B -> R) (u : list A) (v : list B) t :
  (forall a c, derivable_pt_lim (f a c) t (d a c)) ->
  derivable_pt_lim (fun s => sum (zip_with (fun a c => f a c s) u v)) t
    (sum (zip_with d u v)).
Proof.
  intros Hf. revert v. induction u as [|a u IH]; intros [|c v]; simpl;
    try apply (derivable_pt_lim_const 0).
  apply (derivable_pt_lim_plus (f a c)
           (fun s => sum (zip_with (fun a c => f a c s) u v))); auto.
Qed.

(** The cross-entropy with every score of the form [a r + k r * s], as a
    function of [s]. *)
Lemma derivable_pt_lim_scores (y : vec) (X : matrix) (a k : list R -> R) t :
  derivable_pt_lim
    (fun s => -1 / INR (length y)
              * sum (zip_with
                       (fun yi r => yi * ln (sigmoid (a r + k r * s))
                                    + (1 - yi) * ln (1 - sigmoid (a r + k r * s)))
                       y X))
    t
    (-1 / INR (length y)
     * sum (zip_with (fun yi r => k r * (yi - sigmoid (a r + k r * t))) y X)).
Proof.
  apply (derivable_pt_lim_scal
           (fun s => sum (zip_with
                       (fun yi r => yi * ln (sigmoid (a r + k r * s))
                                    + (1 - yi) * ln (1 - sigmoid (a r + k r * s)))
                       y X))).
  apply (derivable_pt_lim_sum_zip_with
           (fun yi r s => yi * ln (sigmoid (a r + k r * s))
                          + (1 - yi) * ln (1 - sigmoid (a r + k r * s)))
           (fun yi r => k r * (yi - sigmoid (a r + k r * t)))).
  intros yi r. apply derivable_pt_lim_cost_term.
Qed.

Lemma cross_entropy_scores (y : vec) (X : matrix) (w : vec) (b : R)
    (a k : list R -> R) s :
  (forall r, inner r w + b = a r + k r * s) ->
  cross_entropy y (probabilities X w b)
  = -1 / INR (length y)
    * sum (zip_with
             (fun yi r => yi * ln (sigmoid (a r + k r * s))
                          + (1 - yi) * ln (1 - sigmoid (a r + k r * s)))
             y X).
Proof.
  intros E. unfold cross_entropy, probabilities. rewrite zip_with_map_r.
  do 2 f_equal. apply zip_with_ext; auto. intros yi r. now rewrite E.
Qed.

Lemma sum_residual_scores (g s : list R -> R) (X : matrix) (y : vec) :
  sum (zip_with Rmult (map g X) (zip_with Rminus (map s X) y))
  = - sum (zip_with (fun yi r => g r * (yi - s r)) y X).
Proof.
  revert y. induction X as [|r X IH]; intros [|yi y]; simpl; try lra.
  rewrite IH. lra.
Qed.

Lemma sum_residual (s : list R -> R) (X : matrix) (y : vec) :
  sum (zip_with Rminus (map s X) y)
  = - sum (zip_with (fun yi r => 1 * (yi - s r)) y X).
Proof.
  revert y. induction X as [|r X IH]; intros [|yi y]; simpl; try lra.
  rewrite IH. lra.
Qed.

Lemma inner_insert (r w : vec) j t :
  (j < length w)%nat ->
  inner r (<[j := t]> w) = inner r w + nth j r 0 * (t - nth j w 0).
Proof.
  unfold inner, sum. revert w j.
  induction r as [|x r IH]; intros [|c w] [|j] Hj; simpl in *; try lia; try lra.
  rewrite IH by lia. lra.
Qed.

Lemma nth_insert_same (w : vec) j t :
  (j < length w)%nat -> nth j (<[j := t]> w) 0 = t.
Proof.
  revert j. induction w as [|c w IH]; intros [|j] Hj; simpl in *; try lia; auto.
  apply IH. lia.
Qed.

Lemma nth_weight_gradient_inner X y w b j :
  (j < length w)%nat ->
  nth j (weight_gradient X y w b) 0
  = 1 / INR (length y)
    * inner (map (fun r => nth j r 0) X) (residual X y w b).
Proof.
  intros Hj. unfold weight_gradient. rewrite map_map.
  rewrite (nth_map_in (A:=vec) _ _ []) by now rewrite length_T.
  now rewrite nth_T.
Qed.

Lemma well_shaped_insert X y w j t :
  well_shaped X y (<[j := t]> w) = well_shaped X y w.
Proof. apply well_shaped_length, length_insert. Qed.

Lemma derivable_pt_lim_cost_bias X y w b :
  derivable_pt_lim (fun t => cross_entropy y (probabilities X w t)) b
    (bias_gradient X y w b).
Proof.
  apply (derivable_pt_lim_ext
           (fun s => -1 / INR (length y)
                     * sum (zip_with
                         (fun yi r =>
                            yi * ln (sigmoid (inner r w + 1 * s))
                            + (1 - yi) * ln (1 - sigmoid (inner r w + 1 * s)))
                         y X))).
  { intros s. symmetry. apply cross_entropy_scores. intros r. ring. }
  eapply derivable_pt_lim_eq;
    [|apply (derivable_pt_lim_scores y X (fun r => inner r w) (fun _ => 1))].
  unfold bias_gradient, residual, probabilities.
  rewrite (sum_residual (fun r => sigmoid (inner r w + b))).
  replace (zip_with (fun yi r => 1 * (yi - sigmoid (inner r w + 1 * b))) y X)
    with (zip_with (fun yi r => 1 * (yi - sigmoid (inner r w + b))) y X)
    by (apply zip_with_ext; auto; intros; do 3 f_equal; ring).
  unfold Rdiv. ring.
Qed.

Lemma derivable_pt_lim_cost_weight X y w b j :
  (j < length w)%nat ->
  derivable_pt_lim
    (fun t => cross_entropy y (probabilities X (<[j := t]> w) b))
    (nth j w 0) (nth j (weight_gradient X y w b) 0).
Proof.
  intros Hj.
  set (a := fun r : list R => inner r w - nth j r 0 * nth j w 0 + b).
  set (k := fun r : list R => nth j r 0).
  apply (derivable_pt_lim_ext
           (fun s => -1 / INR (length y)
                     * sum (zip_with
                         (fun yi r =>
                            yi * ln (sigmoid (a r + k r * s))
                            + (1 - yi) * ln (1 - sigmoid (a r + k r * s)))
                         y X))).
  { intros s. symmetry. apply cross_entropy_scores. intros r.
    rewrite inner_insert by assumption. unfold a, k. ring. }
  eapply derivable_pt_lim_eq; [|apply (derivable_pt_lim_scores y X a k)].
  rewrite nth_weight_gradient_inner by assumption.
  unfold inner at 1. unfold residual, probabilities.
  rewrite (sum_residual_scores k (fun r => sigmoid (inner r w + b))).
  replace (zip_with (fun yi r => k r * (yi - sigmoid (a r + k r * nth j w 0))) y X)
    with (zip_with (fun yi r => k r * (yi - sigmoid (inner r w + b))) y X)
    by (apply zip_with_ext; auto; intros; unfold a, k; do 3 f_equal; ring).
  unfold Rdiv. ring.
Qed.

(** X2: compute_gradient returns the gradient of compute_cost: dj_db is the
    derivative of the cost in b, and dj_dw[j] is the derivative of the cost
    in w[j], the other parameters fixed. *)
Theorem compute_gradient_is_derivative X y w b lam :
  well_shaped X y w = true -> (1 <= length y)%nat ->
  exists (dj_db : R) (dj_dw : vec),
    compute_gradient X y w b lam = Some (dj_db, dj_dw)
    /\ (exists J : R -> R,
          (forall t, compute_cost X y w t lam = Some (J t))
          /\ derivable_pt_lim J b dj_db)
    /\ (forall j, (j < length w)%nat ->
          exists J : R -> R,
            (forall t, compute_cost X y (<[j := t]> w) b lam = Some (J t))
            /\ derivable_pt_lim J (nth j w 0) (nth j dj_dw 0)).
Proof.
  intros Hs Hm. eexists _, _.
  split; [now apply compute_gradient_closed|]. split.
  - exists (fun t => cross_entropy y (probabilities X w t)). split.
    + intros t. now apply compute_cost_closed.
    + apply derivable_pt_lim_cost_bias.
  - intros j Hj.
    exists (fun t => cross_entropy y (probabilities X (<[j := t]> w) b)). split.
    + intros t. apply compute_cost_closed; [|assumption].
      now rewrite well_shaped_insert.
    + now apply derivable_pt_lim_cost_weight.
Qed.

Lemma sum_squares_insert (w : vec) j t :
  (j < length w)%nat ->
  sum (map (fun wj => wj ^ 2) (<[j := t]> w))
  = sum (map (fun wj => wj ^ 2) w) - nth j w 0 ^ 2 + t ^ 2.
Proof.
  unfold sum. revert j.
  induction w as [|c w IH]; intros [|j] Hj; simpl in *; try lia; try lra.
  rewrite IH by lia. simpl. lra.
Qed.

Lemma derivable_pt_lim_l2_penalty m lam (w : vec) j :
  (j < length w)%nat -> (1 <= m)%nat ->
  derivable_pt_lim (fun t => l2_penalty m lam (<[j := t]> w))
    (nth j w 0) (lam / INR m * nth j w 0).
Proof.
  intros Hj Hm. pose proof (INR_len_pos m Hm) as Hpos.
  set (C := sum (map (fun wj => wj ^ 2) w) - nth j w 0 ^ 2).
  apply (derivable_pt_lim_ext
           (mult_real_fct (lam / INR (2 * m)) (plus_fct (fct_cte C) Rsqr))).
  { intros t. unfold l2_penalty. rewrite sum_squares_insert by assumption.
    unfold mult_real_fct, plus_fct, fct_cte, Rsqr, C. simpl. ring. }
  apply (derivable_pt_lim_eq _ _ (lam / INR (2 * m) * (0 + 2 * nth j w 0))).
  { rewrite mult_INR. simpl. field. lra. }
  apply derivable_pt_lim_scal, derivable_pt_lim_plus;
    [apply derivable_pt_lim_const | apply derivable_pt_lim_Rsqr].
Qed.

(** X3: compute_gradient_reg returns the gradient of compute_cost_reg at the
    same lambda_: dj_db is the derivative of the regularised cost in b and
    dj_dw[j] its derivative in w[j]. *)
Theorem compute_gradient_reg_is_derivative X y w b (lam : R) :
  well_shaped X y w = true -> (1 <= length y)%nat ->
  exists (dj_db : R) (dj_dw : vec),
    compute_gradient_reg X y w b (Some lam) = Some (dj_db, dj_dw)
    /\ (exists J : R -> R,
          (forall t, compute_cost_reg X y w t (Some lam) = Some (J t))
          /\ derivable_pt_lim J b dj_db)
    /\ (forall j, (j < length w)%nat ->
          exists J : R -> R,
            (forall t, compute_cost_reg X y (<[j := t]> w) b (Some lam)
                       = Some (J t))
            /\ derivable_pt_lim J (nth j w 0) (nth j dj_dw 0)).
Proof.
  intros Hs Hm. eexists _, _.
  split; [now apply compute_gradient_reg_closed|]. split.
  - exists (fun t => cross_entropy y (probabilities X w t)
                     + l2_penalty (length y) lam w). split.
    + intros t. now apply compute_cost_reg_closed.
    + apply (derivable_pt_lim_eq _ _ (bias_gradient X y w b + 0)); [ring|].
      apply (derivable_pt_lim_plus
               (fun t => cross_entropy y (probabilities X w t))
               (fct_cte (l2_penalty (length y) lam w)));
        [apply derivable_pt_lim_cost_bias | apply derivable_pt_lim_const].
  - intros j Hj.
    exists (fun t => cross_entropy y (probabilities X (<[j := t]> w) b)
                     + l2_penalty (length y) lam (<[j := t]> w)). split.
    + intros t. apply compute_cost_reg_closed; [|assumption].
      now rewrite well_shaped_insert.
    + rewrite nth_zip_with
        by (rewrite ?length_weight_gradient, ?length_map; assumption).
      rewrite (nth_map_in _ _ 0) by assumption.
      apply (derivable_pt_lim_plus
               (fun t => cross_entropy y (probabilities X (<[j := t]> w) b))
               (fun t => l2_penalty (length y) lam (<[j := t]> w)));
        [now apply derivable_pt_lim_cost_weight
        | now apply derivable_pt_lim_l2_penalty].
Qed.

(** ** The cost: values and sign *)




Lemma ln_neg h : 0 < h < 1 -> ln h < 0.
Proof. intros [H0 H1]. rewrite <- ln_1. now apply ln_increasing. Qed.

Lemma cost_term_neg yi z :
  0 <= yi <= 1 ->
  yi * ln (sigmoid z) + (1 - yi) * ln (1 - sigmoid z) < 0.
Proof.
  intros Hy. pose proof (sigmoid_gt_0 z). pose proof (sigmoid_lt_1 z).
  assert (H1 : ln (sigmoid z) < 0) by (apply ln_neg; lra).
  assert (H2 : ln (1 - sigmoid z) < 0) by (apply ln_neg; lra).
  nra.
Qed.

Lemma sum_terms_neg (y : vec) (X : matrix) (s : list R -> R) :
  Forall (fun yi => 0 <= yi <= 1) y ->
  length X = length y -> (1 <= length y)%nat ->
  sum (zip_with (fun yi r => yi * ln (sigmoid (s r))
                             + (1 - yi) * ln (1 - sigmoid (s r))) y X) < 0.
Proof.
  unfold sum. intros Hy. revert X.
  induction Hy as [|yi y Hyi Hy IH]; intros [|r X] E Hm; simpl in *; try lia.
  pose proof (cost_term_neg yi (s r) Hyi).
  destruct y as [|yi' y].
  - destruct X; simpl in *; [lra | lia].
  - simpl in *. assert (HX : length X = S (length y)) by lia.
    specialize (IH X HX ltac:(lia)). lra.
Qed.

(** X7: with labels between 0 and 1 (binary labels in particular),
    compute_cost never returns a negative cost. *)
Theorem compute_cost_never_negative X y w b lam :
  well_shaped X y w = true -> (1 <= length y)%nat ->
  Forall (fun yi => 0 <= yi <= 1) y ->
  exists c : R, compute_cost X y w b lam = Some c /\ ~ c < 0.
Proof.
  intros Hs Hm Hy. eexists. split; [now apply compute_cost_closed|].
  unfold cross_entropy, probabilities. rewrite zip_with_map_r.
  pose proof (sum_terms_neg y X (fun r => inner r w + b) Hy
                (well_shaped_rows _ _ _ Hs) Hm) as Hneg.
  pose proof (INR_len_pos _ Hm) as Hpos.
  assert (Hi : 0 < / INR (length y)) by now apply Rinv_0_lt_compat.
  unfold Rdiv. nra.
Qed.

Lemma sum_squares_nonneg (w : vec) : 0 <= sum (map (fun wj => wj ^ 2) w).
Proof.
  unfold sum. induction w as [|c w IH]; simpl; [lra|].
  pose proof (pow2_ge_0 c). simpl in *. lra.
Qed.

(** X8: compute_cost_reg does not decrease when lambda_ grows: for
    lambda1 <= lambda2 the cost at lambda2 is never less than the cost at
    lambda1. *)
Theorem compute_cost_reg_lambda_monotone X y w b (lam1 lam2 : R) :
  well_shaped X y w = true -> (1 <= length y)%nat -> lam1 <= lam2 ->
  exists c1 c2 : R,
    compute_cost_reg X y w b (Some lam1) = Some c1
    /\ compute_cost_reg X y w b (Some lam2) = Some c2
    /\ ~ c2 < c1.
Proof.
  intros Hs Hm Hl. eexists _, _.
  split; [now apply compute_cost_reg_closed|].
  split; [now apply compute_cost_reg_closed|].
  pose proof (INR_len_pos (2 * length y) ltac:(lia)) as Hpos.
  pose proof (sum_squares_nonneg w) as Hsq.
  apply Rle_not_lt, Rplus_le_compat_l. unfold l2_penalty.
  apply Rmult_le_compat_r; [assumption|].
  apply Rmult_le_compat_r; [|assumption].
  now apply Rlt_le, Rinv_0_lt_compat.
Qed.

(** ** When the cost and gradient routines raise *)

(** X9: on an empty label vector every cost and gradient routine raises
    (the division by m = len(y) = 0, or np.dot before it). *)
Theorem routines_raise_on_empty_labels X w b lam :
  compute_cost X [] w b lam = None
  /\ compute_gradient X [] w b lam = None
  /\ compute_cost_reg X [] w b lam = None
  /\ compute_gradient_reg X [] w b lam = None.
Proof.
  unfold compute_cost, compute_gradient, compute_cost_reg, compute_gradient_reg.
  destruct (dot X w); repeat split; reflexivity.
Qed.

Lemma compute_cost_reg_None X y w b : compute_cost_reg X y w b None = None.
Proof.
  unfold compute_cost_reg.
  destruct (dot X w); [simpl|reflexivity].
  destruct (py_div (-1) (length y)); [simpl|reflexivity].
  now destruct (log_likelihood y _).
Qed.

Lemma compute_gradient_reg_None X y w b : compute_gradient_reg X y w b None = None.
Proof.
  unfold compute_gradient_reg.
  destruct (dot X w); [simpl|reflexivity].
  destruct (py_div 1 (length y)); [simpl|reflexivity].
  destruct (broadcast Rminus _ y); [simpl|reflexivity].
  now destruct (dot (T (length w) X) _).
Qed.

(** X10: the regularised routines raise when lambda_ is None, and so does
    gradient_descent called with its default lambda_ = None and one of them,
    as soon as num_iters >= 1. *)
Theorem gradient_descent_default_lambda_raises
    X y alpha (st : store) w_in b_in num_iters :
  (1 <= num_iters)%Z ->
  (forall w b, compute_cost_reg X y w b None = None
               /\ compute_gradient_reg X y w b None = None)
  /\ (forall cost_function,
        gradient_descent X y cost_function compute_gradient_reg alpha None
          st w_in b_in num_iters = None)
  /\ (forall gradient_function,
        gradient_descent X y compute_cost_reg gradient_function alpha None
          st w_in b_in num_iters = None).
Proof.
  intros Hn.
  split; [intros w b; split;
          [apply compute_cost_reg_None | apply compute_gradient_reg_None]|].
  assert (Hseq : exists k, Z.to_nat num_iters = S k)
    by (exists (Z.to_nat (num_iters - 1)); lia).
  destruct Hseq as [k Hk].
  split; intros f; unfold gradient_descent;
    (destruct (st !! w_in) as [w0|]; [simpl|reflexivity]);
    (destruct (Z.ltb_spec num_iters 0) as [|_]; [lia|]);
    rewrite Hk; simpl; rewrite lookup_insert_eq; simpl.
  - now rewrite compute_gradient_reg_None.
  - destruct (f X y w0 b_in None) as [[dj_db dj_dw]|]; [simpl|reflexivity].
    destruct (isub w0 _) as [w'|]; [simpl|reflexivity].
    rewrite lookup_insert_eq. simpl. now rewrite compute_cost_reg_None.
Qed.

Lemma broadcast_is_Some f u v :
  is_Some (broadcast f u v)
  <-> (length u = length v \/ length u = 1 \/ length v = 1)%nat.
Proof.
  unfold broadcast. destruct (Nat.eqb_spec (length u) (length v)) as [E|E].
  - split; eauto.
  - destruct u as [|a [|a' u]], v as [|c [|c' v]]; simpl in *;
      split; intros H; eauto; try lia;
      try (destruct H as [? Hx]; discriminate).
Qed.

Lemma broadcast_lengths f g u v u' v' r r' :
  length u = length u' -> length v = length v' ->
  broadcast f u v = Some r -> broadcast g u' v' = Some r' ->
  length r = length r'.
Proof.
  unfold broadcast. intros Eu Ev. rewrite <- Eu, <- Ev.
  destruct (Nat.eqb (length u) (length v)).
  - intros [= <-] [= <-]. rewrite !length_zip_with. lia.
  - destruct u as [|a [|a2 u]], u' as [|a' [|a2' u']]; simpl in *; try lia;
      destruct v as [|c [|c2 v]], v' as [|c' [|c2' v']]; simpl in *; try lia;
      intros H H'; try discriminate;
      injection H as <-; injection H' as <-; simpl;
      rewrite ?length_map; simpl; lia.
Qed.

Lemma log_likelihood_is_Some y h :
  is_Some (log_likelihood y h)
  <-> (length y = length h \/ length y = 1 \/ length h = 1)%nat.
Proof.
  unfold log_likelihood.
  pose proof (broadcast_is_Some Rmult y (map ln h)) as H1.
  pose proof (broadcast_is_Some Rmult (map (fun yi => 1 - yi) y)
                (map (fun hi => ln (1 - hi)) h)) as H2.
  repeat rewrite length_map in H1. repeat rewrite length_map in H2.
  destruct (broadcast Rmult y (map ln h)) as [t1|] eqn:E1.
  - destruct (broadcast Rmult (map _ y) (map _ h)) as [t2|] eqn:E2.
    + simpl. rewrite broadcast_same_length.
      * simpl. split; [intros _; apply H1|]; eauto.
      * eapply broadcast_lengths; [| |exact E1|exact E2];
          now rewrite !length_map.
    + simpl. split; [intros [? Hx]; discriminate|].
      intros HP. apply H2 in HP as [? Hx]. discriminate.
  - simpl. split; [intros [? Hx]; discriminate|].
    intros HP. apply H1 in HP as [? Hx]. discriminate.
Qed.

(** X11: for X with at least one row, compute_cost returns exactly when
    every row of X has len(w) entries, y is not empty, and the labels
    broadcast against the rows (as many labels as rows, or a single label,
    or a single row); otherwise it raises. *)
Theorem compute_cost_returns_iff X y w b lam :
  X <> [] ->
  is_Some (compute_cost X y w b lam)
  <-> forallb (fun r => Nat.eqb (length r) (length w)) X = true
      /\ (1 <= length y)%nat
      /\ (length y = length X \/ length y = 1 \/ length X = 1)%nat.
Proof.
  intros _. unfold compute_cost, dot.
  destruct (forallb _ X).
  - simpl. unfold py_div. destruct (Nat.eqb_spec (length y) 0) as [E|E].
    + simpl. split; [intros [? Hx]; discriminate | lia].
    + simpl.
      pose proof (log_likelihood_is_Some y
        (map sigmoid (map (fun t => t + b) (map (fun r => inner r w) X))))
        as Hl.
      rewrite !length_map in Hl.
      destruct (log_likelihood y _) as [s|]; simpl.
      * split; [intros _|eauto]. repeat split; [lia | now apply Hl].
      * split; [intros [? Hx]; discriminate|].
        intros (_ & _ & Hb). apply Hl in Hb as [? Hx]. discriminate.
  - simpl. split; [intros [? Hx]; discriminate | intros [Hx _]; discriminate].
Qed.

(** ** Gradient descent: shape, frame, composition, stationary points *)

Lemma isub_length w d w' : isub w d = Some w' -> length w' = length w.
Proof.
  unfold isub. destruct (Nat.eqb_spec (length d) (length w)) as [E|E].
  - intros [= <-]. rewrite length_zip_with. lia.
  - destruct d as [|c [|c' d]]; try discriminate.
    intros [= <-]. now rewrite length_map.
Qed.

Lemma gd_update_length X y g alpha lam p p' :
  gd_update X y g alpha lam p = Some p' -> length p'.1 = length p.1.
Proof.
  unfold gd_update.
  destruct (g X y p.1 p.2 lam) as [[dj_db dj_dw]|]; [simpl|discriminate].
  destruct (isub p.1 _) as [w'|] eqn:E; [simpl|discriminate].
  intros [= <-]. simpl. now apply isub_length in E.
Qed.

Lemma gd_run_length X y c g alpha lam r : forall p pf cs,
  gd_run X y c g alpha lam r p = Some (pf, cs) -> length pf.1 = length p.1.
Proof.
  induction r as [|r IH]; intros p pf cs; simpl.
  - now intros [= <- <-].
  - destruct (gd_update X y g alpha lam p) as [p'|] eqn:Hu; [simpl|discriminate].
    destruct (c X y p'.1 p'.2 lam); [simpl|discriminate].
    destruct (gd_run X y c g alpha lam r p') as [[pf' cs']|] eqn:Hr;
      [simpl|discriminate].
    intros [= <- <-]. rewrite (IH _ _ _ Hr). now apply gd_update_length in Hu.
Qed.

(** What a returning call tells about its arguments and its result. *)
Lemma gradient_descent_Some_inv X y c g alpha lam (st : store)
    w_in b_in num_iters st' w b J :
  gradient_descent X y c g alpha lam st w_in b_in num_iters
  = Some (st', w, b, J) ->
  exists w0 wf,
    st !! w_in = Some w0 /\ (0 <= num_iters)%Z
    /\ gd_run X y c g alpha lam (Z.to_nat num_iters) (w0, b_in)
       = Some (wf, b, J)
    /\ w = fresh (dom st) /\ st' = <[w := wf]> st.
Proof.
  intros H. destruct (st !! w_in) as [w0|] eqn:Hw;
    [|unfold gradient_descent in H; rewrite Hw in H; discriminate].
  assert (Hn : (0 <= num_iters)%Z).
  { unfold gradient_descent in H. rewrite Hw in H. simpl in H.
    destruct (Z.ltb_spec num_iters 0); [discriminate | assumption]. }
  rewrite (gradient_descent_run _ _ _ _ _ _ _ _ _ _ _ Hw Hn) in H.
  destruct (gd_run X y c g alpha lam (Z.to_nat num_iters) (w0, b_in))
    as [[[wf bf] cs]|] eqn:Hr; [simpl in H|discriminate].
  injection H as <- <- <- <-. exists w0, wf. repeat split; assumption.
Qed.

(** X12: whatever the supplied functions, the array gradient_descent
    returns has the shape of w_in. *)
Theorem gradient_descent_keeps_shape X y cost_function gradient_function
    alpha lambda_ (st : store) w_in w0 b_in num_iters st' w b J_history :
  st !! w_in = Some w0 ->
  gradient_descent X y cost_function gradient_function alpha lambda_
    st w_in b_in num_iters
  = Some (st', w, b, J_history) ->
  exists wv : vec, st' !! w = Some wv /\ length wv = length w0.
Proof.
  intros Hw H.
  apply gradient_descent_Some_inv in H
    as (w0' & wf & Hw' & _ & Hr & _ & ->).
  rewrite Hw in Hw'. injection Hw' as <-.
  exists wf. split; [apply lookup_insert_eq|].
  now apply gd_run_length in Hr.
Qed.

(** X13: gradient_descent changes the store only by allocating the array it
    returns: that reference was free before the call, and every array that
    existed before keeps its contents. *)
Theorem gradient_descent_frame X y cost_function gradient_function
    alpha lambda_ (st : store) w_in b_in num_iters st' w b J_history :
  gradient_descent X y cost_function gradient_function alpha lambda_
    st w_in b_in num_iters
  = Some (st', w, b, J_history) ->
  st !! w = None /\ forall r : nat, r <> w -> st' !! r = st !! r.
Proof.
  intros H.
  apply gradient_descent_Some_inv in H as (w0 & wf & _ & _ & _ & -> & ->).
  split.
  - apply not_elem_of_dom, is_fresh.
  - intros r Hr. now rewrite lookup_insert_ne.
Qed.

Lemma gd_run_app X y c g alpha lam r1 r2 : forall p,
  gd_run X y c g alpha lam (r1 + r2) p
  = '(p1, cs1) ← gd_run X y c g alpha lam r1 p;
    '(p2, cs2) ← gd_run X y c g alpha lam r2 p1;
    Some (p2, cs1 ++ cs2).
Proof.
  induction r1 as [|r1 IH]; intros p; simpl.
  - now destruct (gd_run X y c g alpha lam r2 p) as [[p2 cs2]|].
  - destruct (gd_update X y g alpha lam p) as [p'|]; [simpl|reflexivity].
    destruct (c X y p'.1 p'.2 lam) as [c0|]; [simpl|reflexivity].
    rewrite IH.
    destruct (gd_run X y c g alpha lam r1 p') as [[p1 cs1]|];
      [simpl|reflexivity].
    now destruct (gd_run X y c g alpha lam r2 p1) as [[p2 cs2]|].
Qed.

(** X14: gradient descent composes: running n1 iterations and then n2 more
    from the returned array and bias gives the parameters of one run of
    n1 + n2 iterations, and the loss history of that run is the two
    histories one after the other. *)
Theorem gradient_descent_compose X y cost_function gradient_function
    alpha lambda_ (st : store) w_in b_in n1 n2
    st1 w1 b1 J1 st2 w2 b2 J2 :
  gradient_descent X y cost_function gradient_function alpha lambda_
    st w_in b_in n1
  = Some (st1, w1, b1, J1) ->
  gradient_descent X y cost_function gradient_function alpha lambda_
    st1 w1 b1 n2
  = Some (st2, w2, b2, J2) ->
  exists (st' : store) (w' : nat),
    gradient_descent X y cost_function gradient_function alpha lambda_
      st w_in b_in (n1 + n2)
    = Some (st', w', b2, J1 ++ J2)
    /\ st' !! w' = st2 !! w2.
Proof.
  intros H1 H2.
  apply gradient_descent_Some_inv in H1
    as (w0 & wf1 & Hw & Hn1 & Hr1 & -> & ->).
  apply gradient_descent_Some_inv in H2
    as (w0' & wf2 & Hw' & Hn2 & Hr2 & -> & ->).
  rewrite lookup_insert_eq in Hw'. injection Hw' as <-.
  rewrite (gradient_descent_run _ _ _ _ _ _ _ _ _ _ _ Hw) by lia.
  rewrite Z2Nat.inj_add, gd_run_app, Hr1 by assumption. simpl.
  rewrite Hr2. simpl. eexists _, _. split; [reflexivity|].
  now rewrite !lookup_insert_eq.
Qed.

Lemma zip_with_minus_zero alpha (w : vec) :
  zip_with Rminus w (map (Rmult alpha) (zeros (length w))) = w.
Proof.
  unfold zeros. induction w as [|c w IH]; simpl; [reflexivity|].
  rewrite IH. f_equal. ring.
Qed.

Lemma gd_update_stationary X y g alpha lam w b :
  g X y w b lam = Some (0, zeros (length w)) ->
  gd_update X y g alpha lam (w, b) = Some (w, b).
Proof.
  intros Hg. unfold gd_update. simpl. rewrite Hg. simpl.
  rewrite isub_same_length
    by (unfold zeros; now rewrite length_map, length_replicate).
  simpl. rewrite zip_with_minus_zero. do 2 f_equal. ring.
Qed.

Lemma gd_run_stationary X y c g alpha lam w b c0 r :
  g X y w b lam = Some (0, zeros (length w)) ->
  c X y w b lam = Some c0 ->
  gd_run X y c g alpha lam r (w, b) = Some ((w, b), replicate r c0).
Proof.
  intros Hg Hc. induction r as [|r IH]; simpl; [reflexivity|].
  rewrite gd_update_stationary by assumption. simpl.
  rewrite Hc. simpl. now rewrite IH.
Qed.

(** X15: started where the supplied gradient is zero, gradient_descent
    returns the initial parameters, and every entry of the loss history is
    the cost at those parameters. *)
Theorem gradient_descent_stationary X y cost_function gradient_function
    alpha lambda_ (st : store) w_in w0 b_in num_iters c :
  st !! w_in = Some w0 -> (0 <= num_iters)%Z ->
  gradient_function X y w0 b_in lambda_ = Some (0, zeros (length w0)) ->
  cost_function X y w0 b_in lambda_ = Some c ->
  exists (st' : store) (w : nat),
    gradient_descent X y cost_function gradient_function alpha lambda_
      st w_in b_in num_iters
    = Some (st', w, b_in, replicate (Z.to_nat num_iters) c)
    /\ st' !! w = Some w0.
Proof.
  intros Hw Hn Hg Hc.
  rewrite (gradient_descent_run _ _ _ _ _ _ _ _ _ _ _ Hw Hn).
  rewrite (gd_run_stationary _ _ _ _ _ _ _ _ c) by assumption. simpl.
  eexists _, _. split; [reflexivity | apply lookup_insert_eq].
Qed.

(** ** Edge cases of the data *)

Lemma inner_zero_l (u v : vec) : Forall (fun x => x = 0) u -> inner u v = 0.
Proof.
  unfold inner, sum. intros Hu. revert v.
  induction Hu as [|x u -> Hu IH]; intros [|c v]; simpl; try lra.
  rewrite IH. lra.
Qed.

(** X17: a feature that is zero in every example gets weight gradient 0 from
    compute_gradient, and (lambda_ / m) * w[j] from compute_gradient_reg. *)
Theorem zero_feature_gradient X y w b (lam : R) j :
  well_shaped X y w = true -> (1 <= length y)%nat -> (j < length w)%nat ->
  Forall (fun r => nth j r 0 = 0) X ->
  exists (dj_db : R) (dj_dw dj_dw_reg : vec),
    compute_gradient X y w b None = Some (dj_db, dj_dw)
    /\ nth j dj_dw 0 = 0
    /\ compute_gradient_reg X y w b (Some lam) = Some (dj_db, dj_dw_reg)
    /\ nth j dj_dw_reg 0 = lam / INR (length y) * nth j w 0.
Proof.
  intros Hs Hm Hj Hz.
  assert (H0 : nth j (weight_gradient X y w b) 0 = 0).
  { rewrite nth_weight_gradient_inner by assumption.
    rewrite inner_zero_l; [ring|].
    apply List.Forall_forall. intros x Hx.
    apply in_map_iff in Hx as (r & <- & Hr).
    rewrite List.Forall_forall in Hz. now apply Hz. }
  eexists _, _, _.
  split; [now apply compute_gradient_closed|]. split; [exact H0|].
  split; [now apply compute_gradient_reg_closed|].
  rewrite nth_zip_with
    by (rewrite ?length_weight_gradient, ?length_map; assumption).
  rewrite H0, (nth_map_in _ _ 0) by assumption. ring.
Qed.

Lemma zip_with_same {A B} (f : A -> A -> B) (l : list A) :
  zip_with f l l = map (fun x => f x x) l.
Proof. induction l as [|x l IH]; simpl; congruence. Qed.

(** X18: with a single label and several rows compute_cost does not raise:
    the label is broadcast over the rows and, m being len(y) = 1, the sum of
    the terms is returned without averaging over the rows. *)
Theorem compute_cost_single_label X y0 w b lam :
  forallb (fun r => Nat.eqb (length r) (length w)) X = true ->
  compute_cost X [y0] w b lam
  = Some (- sum (map (fun r =>
                   y0 * ln (sigmoid (inner r w + b))
                   + (1 - y0) * ln (1 - sigmoid (inner r w + b))) X)).
Proof.
  intros Hs. unfold compute_cost, dot. rewrite Hs. simpl.
  rewrite !map_map. unfold log_likelihood, broadcast. simpl.
  rewrite !length_map.
  destruct X as [|r [|r' X]]; simpl.
  - f_equal. unfold sum. simpl. lra.
  - f_equal. unfold sum. simpl. lra.
  - rewrite !length_map, Nat.eqb_refl. simpl. f_equal.
    rewrite !map_map, zip_with_map_l, zip_with_map_r.
    rewrite zip_with_same. unfold sum. simpl. lra.
Qed.

(** ** The further properties at a concrete dataset *)

Lemma compute_gradient_is_derivative_witness :
  well_shaped [[1; 2]; [3; 4]] [0; 1] [1; -1] = true
  /\ (1 <= length [0; 1]%R)%nat
  /\ exists (dj_db : R) (dj_dw : vec),
       compute_gradient [[1; 2]; [3; 4]] [0; 1] [1; -1] 0 None
       = Some (dj_db, dj_dw)
       /\ (exists J : R -> R,
             (forall t,
                compute_cost [[1; 2]; [3; 4]] [0; 1] [1; -1] t None
                = Some (J t))
             /\ derivable_pt_lim J 0 dj_db)
       /\ (forall j, (j < length [1; -1]%R)%nat ->
             exists J : R -> R,
               (forall t,
                  compute_cost [[1; 2]; [3; 4]] [0; 1] (<[j := t]> [1; -1]) 0 None
                  = Some (J t))
               /\ derivable_pt_lim J (nth j [1; -1] 0) (nth j dj_dw 0)).
Proof.
  split; [reflexivity|]. split; [simpl; lia|].
  apply compute_gradient_is_derivative; [reflexivity | simpl; lia].
Defined.

Lemma compute_gradient_reg_is_derivative_witness :
  well_shaped [[1; 2]; [3; 4]] [0; 1] [1; -1] = true
  /\ (1 <= length [0; 1]%R)%nat
  /\ exists (dj_db : R) (dj_dw : vec),
       compute_gradient_reg [[1; 2]; [3; 4]] [0; 1] [1; -1] 0 (Some 10)
       = Some (dj_db, dj_dw)
       /\ (exists J : R -> R,
             (forall t,
                compute_cost_reg [[1; 2]; [3; 4]] [0; 1] [1; -1] t (Some 10)
                = Some (J t))
             /\ derivable_pt_lim J 0 dj_db)
       /\ (forall j, (j < length [1; -1]%R)%nat ->
             exists J : R -> R,
               (forall t,
                  compute_cost_reg [[1; 2]; [3; 4]] [0; 1]
                    (<[j := t]> [1; -1]) 0 (Some 10)
                  = Some (J t))
               /\ derivable_pt_lim J (nth j [1; -1] 0) (nth j dj_dw 0)).
Proof.
  split; [reflexivity|]. split; [simpl; lia|].
  apply compute_gradient_reg_is_derivative; [reflexivity | simpl; lia].
Defined.


Lemma compute_cost_never_negative_witness :
  well_shaped [[1; 2]; [3; 4]] [0; 1] [1; -1] = true
  /\ (1 <= length [0; 1]%R)%nat
  /\ Forall (fun yi => 0 <= yi <= 1) [0; 1]
  /\ exists c : R,
       compute_cost [[1; 2]; [3; 4]] [0; 1] [1; -1] 0 None = Some c /\ ~ c < 0.
Proof.
  assert (Hy : Forall (fun yi => 0 <= yi <= 1) [0; 1])
    by (repeat (apply List.Forall_cons; [lra|]); apply List.Forall_nil).
  split; [reflexivity|]. split; [simpl; lia|]. split; [exact Hy|].
  apply compute_cost_never_negative; [reflexivity | simpl; lia | exact Hy].
Defined.

Lemma compute_cost_reg_lambda_monotone_witness :
  well_shaped [[1; 2]; [3; 4]] [0; 1] [1; -1] = true
  /\ (1 <= length [0; 1]%R)%nat
  /\ 1 <= 5
  /\ exists c1 c2 : R,
       compute_cost_reg [[1; 2]; [3; 4]] [0; 1] [1; -1] 0 (Some 1) = Some c1
       /\ compute_cost_reg [[1; 2]; [3; 4]] [0; 1] [1; -1] 0 (Some 5) = Some c2
       /\ ~ c2 < c1.
Proof.
  split; [reflexivity|]. split; [simpl; lia|]. split; [lra|].
  apply compute_cost_reg_lambda_monotone; [reflexivity | simpl; lia | lra].
Defined.

Lemma gradient_descent_default_lambda_raises_witness :
  (1 <= 3)%Z
  /\ (forall w b,
        compute_cost_reg [[1; 2]; [3; 4]] [0; 1] w b None = None
        /\ compute_gradient_reg [[1; 2]; [3; 4]] [0; 1] w b None = None)
  /\ (forall cost_function,
        gradient_descent [[1; 2]; [3; 4]] [0; 1]
          cost_function compute_gradient_reg 0.1 None
          {[0%nat := [1; -1]]} 0 0 3 = None)
  /\ (forall gradient_function,
        gradient_descent [[1; 2]; [3; 4]] [0; 1]
          compute_cost_reg gradient_function 0.1 None
          {[0%nat := [1; -1]]} 0 0 3 = None).
Proof.
  split; [lia|]. apply gradient_descent_default_lambda_raises. lia.
Defined.

Lemma zero_feature_gradient_witness :
  well_shaped [[0; 2]; [0; 4]] [0; 1] [1; -1] = true
  /\ (1 <= length [0; 1]%R)%nat
  /\ (0 < length [1; -1]%R)%nat
  /\ Forall (fun r => nth 0 r 0 = 0) [[0; 2]; [0; 4]]
  /\ exists (dj_db : R) (dj_dw dj_dw_reg : vec),
       compute_gradient [[0; 2]; [0; 4]] [0; 1] [1; -1] 0 None
       = Some (dj_db, dj_dw)
       /\ nth 0 dj_dw 0 = 0
       /\ compute_gradient_reg [[0; 2]; [0; 4]] [0; 1] [1; -1] 0 (Some 10)
          = Some (dj_db, dj_dw_reg)
       /\ nth 0 dj_dw_reg 0 = 10 / INR (length [0; 1]%R) * nth 0 [1; -1] 0.
Proof.
  assert (Hz : Forall (fun r => nth 0 r 0 = 0) [[0; 2]; [0; 4]])
    by (repeat constructor).
  split; [reflexivity|]. split; [simpl; lia|]. split; [simpl; lia|].
  split; [exact Hz|].
  apply zero_feature_gradient; [reflexivity | simpl; lia | simpl; lia | exact Hz].
Defined.

Lemma compute_cost_single_label_witness :
  forallb (fun r => Nat.eqb (length r) (length [1; -1]%R)) [[1; 2]; [3; 4]]
  = true
  /\ compute_cost [[1; 2]; [3; 4]] [1] [1; -1] 0 None
     = Some (- sum (map (fun r =>
                      1 * ln (sigmoid (inner r [1; -1] + 0))
                      + (1 - 1) * ln (1 - sigmoid (inner r [1; -1] + 0)))
                   [[1; 2]; [3; 4]])).
Proof.
  split; [reflexivity|]. apply compute_cost_single_label. reflexivity.
Defined.

Lemma gradient_descent_keeps_shape_witness :
  ({[0%nat := [1; -1]]} : store) !! 0%nat = Some [1; -1]
  /\ exists (st' : store) (w : nat) (b : R) (J_history : vec),
       gradient_descent [[1; 2]; [3; 4]] [0; 1] compute_cost compute_gradient
         0.1 None {[0%nat := [1; -1]]} 0 0 3
       = Some (st', w, b, J_history)
       /\ exists wv : vec, st' !! w = Some wv /\ length wv = length [1; -1]%R.
Proof.
  split; [reflexivity|].
  destruct (gradient_descent_returns [[1; 2]; [3; 4]] [0; 1] 0.1 None
              {[0%nat := [1; -1]]} 0%nat [1; -1] 0 3)
    as (st' & w & b & J & HJ); [reflexivity | lia | reflexivity | simpl; lia |].
  exists st', w, b, J. split; [exact HJ|].
  apply (gradient_descent_keeps_shape
           [[1; 2]; [3; 4]] [0; 1] compute_cost compute_gradient 0.1 None
           {[0%nat := [1; -1]]} 0%nat [1; -1] 0 3 st' w b J);
    [reflexivity | exact HJ].
Defined.

Lemma gradient_descent_frame_witness :
  exists (st' : store) (w : nat) (b : R) (J_history : vec),
    gradient_descent [[1; 2]; [3; 4]] [0; 1] compute_cost compute_gradient
      0.1 None {[0%nat := [1; -1]; 7%nat := [5]]} 0 0 3
    = Some (st', w, b, J_history)
    /\ ({[0%nat := [1; -1]; 7%nat := [5]]} : store) !! w = None
    /\ forall r : nat,
         r <> w -> st' !! r = ({[0%nat := [1; -1]; 7%nat := [5]]} : store) !! r.
Proof.
  destruct (gradient_descent_returns [[1; 2]; [3; 4]] [0; 1] 0.1 None
              {[0%nat := [1; -1]; 7%nat := [5]]} 0%nat [1; -1] 0 3)
    as (st' & w & b & J & HJ); [reflexivity | lia | reflexivity | simpl; lia |].
  exists st', w, b, J. split; [exact HJ|].
  apply (gradient_descent_frame
           [[1; 2]; [3; 4]] [0; 1] compute_cost compute_gradient 0.1 None
           {[0%nat := [1; -1]; 7%nat := [5]]} 0%nat 0 3 st' w b J HJ).
Defined.

Lemma gradient_descent_compose_witness :
  exists (st1 : store) (w1 : nat) (b1 : R) (J1 : vec)
         (st2 : store) (w2 : nat) (b2 : R) (J2 : vec),
    gradient_descent [[1; 2]; [3; 4]] [0; 1] compute_cost compute_gradient
      0.1 None {[0%nat := [1; -1]]} 0 0 2
    = Some (st1, w1, b1, J1)
    /\ gradient_descent [[1; 2]; [3; 4]] [0; 1] compute_cost compute_gradient
         0.1 None st1 w1 b1 3
       = Some (st2, w2, b2, J2)
    /\ exists (st' : store) (w' : nat),
         gradient_descent [[1; 2]; [3; 4]] [0; 1] compute_cost compute_gradient
           0.1 None {[0%nat := [1; -1]]} 0 0 (2 + 3)
         = Some (st', w', b2, J1 ++ J2)
         /\ st' !! w' = st2 !! w2.
Proof.
  destruct (gradient_descent_returns [[1; 2]; [3; 4]] [0; 1] 0.1 None
              {[0%nat := [1; -1]]} 0%nat [1; -1] 0 2)
    as (st1 & w1 & b1 & J1 & H1); [reflexivity | lia | reflexivity | simpl; lia |].
  destruct (gradient_descent_Some_inv _ _ _ _ _ _ _ _ _ _ _ _ _ _ H1)
    as (w0 & wf & Hw & _ & Hr & _ & Hst).
  assert (Hw1 : st1 !! w1 = Some wf) by (rewrite Hst; apply lookup_insert_eq).
  assert (Hs1 : well_shaped [[1; 2]; [3; 4]] [0; 1] wf = true).
  { rewrite (well_shaped_length _ _ [1; -1]); [reflexivity|].
    apply gd_run_length in Hr. simpl in Hr. rewrite Hr.
    rewrite lookup_singleton_eq in Hw. now injection Hw as <-. }
  destruct (gradient_descent_returns [[1; 2]; [3; 4]] [0; 1] 0.1 None
              st1 w1 wf b1 3 Hw1)
    as (st2 & w2 & b2 & J2 & H2); [lia | exact Hs1 | simpl; lia |].
  exists st1, w1, b1, J1, st2, w2, b2, J2.
  split; [exact H1|]. split; [exact H2|].
  exact (gradient_descent_compose _ _ _ _ _ _ _ _ _ _ _ _ _ _ _ _ _ _ _ H1 H2).
Defined.

Lemma gradient_descent_stationary_witness :
  ({[0%nat := [1; -1]]} : store) !! 0%nat = Some [1; -1]
  /\ (0 <= 3)%Z
  /\ (fun (_ : matrix) (_ w : vec) (_ : R) (_ : option R) =>
        Some (0, zeros (length w)))
       [[1; 2]; [3; 4]] [0; 1] [1; -1] 0 None
     = Some (0, zeros (length [1; -1]%R))
  /\ compute_cost [[1; 2]; [3; 4]] [0; 1] [1; -1] 0 None
     = Some (cross_entropy [0; 1] (probabilities [[1; 2]; [3; 4]] [1; -1] 0))
  /\ exists (st' : store) (w : nat),
       gradient_descent [[1; 2]; [3; 4]] [0; 1] compute_cost
         (fun _ _ w _ _ => Some (0, zeros (length w))) 0.1 None
         {[0%nat := [1; -1]]} 0 0 3
       = Some (st', w, 0,
               replicate (Z.to_nat 3)
                 (cross_entropy [0; 1]
                    (probabilities [[1; 2]; [3; 4]] [1; -1] 0)))
       /\ st' !! w = Some [1; -1].
Proof.
  assert (Hc : compute_cost [[1; 2]; [3; 4]] [0; 1] [1; -1] 0 None
               = Some (cross_entropy [0; 1]
                         (probabilities [[1; 2]; [3; 4]] [1; -1] 0)))
    by (apply compute_cost_closed; [reflexivity | simpl; lia]).
  split; [reflexivity|]. split; [lia|]. split; [reflexivity|].
  split; [exact Hc|].
  apply gradient_descent_stationary; [reflexivity | lia | reflexivity | exact Hc].
Defined.

Lemma compute_cost_returns_iff_witness :
  [[1; 2]; [3; 4]] <> ([] : matrix)
  /\ (is_Some (compute_cost [[1; 2]; [3; 4]] [0; 1] [1; -1] 0 None)
      <-> forallb (fun r => Nat.eqb (length r) (length [1; -1]%R))
            [[1; 2]; [3; 4]] = true
          /\ (1 <= length [0; 1]%R)%nat
          /\ (length [0; 1]%R = length [[1; 2]; [3; 4]]
              \/ length [0; 1]%R = 1 \/ length [[1; 2]; [3; 4]] = 1)%nat).
Proof.
  assert (H : [[1; 2]; [3; 4]] <> ([] : matrix)) by discriminate.
  split; [exact H|].
  exact (compute_cost_returns_iff [[1; 2]; [3; 4]] [0; 1] [1; -1] 0 None H).
Defined.
